(** * firmo maintenance scripts: blank-line normalizer and table spacer

    A shallow embedding of [fix_multiple_blanks.py] and [fix_tables.py].
    Both scripts read a whole Markdown file, rewrite its text with one call
    into Python's [re] / [str] library, and write the text back.  The file
    first models the part of the library the scripts call (a backtracking
    matcher for the operators that occur in the two patterns, [re.findall],
    [re.sub], [str.replace], [os.path.join], [os.walk]), then the scripts,
    then the properties. *)

From Stdlib Require Import Ascii String List Arith Bool Lia.
From stdpp Require Import gmap strings list.

Set Default Proof Using "Type".

(** Text is a sequence of characters.  The patterns only tell the newline
    and the pipe apart from the other characters. *)
Abbreviation str := (list ascii).

Definition nl : ascii := "010"%char.
Definition pipe : ascii := "|"%char.

(** Text written as in a Python literal: backslash-n is the newline. *)
Fixpoint py (s : string) : str :=
  match s with
  | EmptyString => []
  | String "\" (String "n" s') => nl :: py s'
  | String c s' => c :: py s'
  end.

(** * The regular-expression engine *)

Module Re.

(** The operators that occur in the two patterns of the scripts. *)
Inductive regex : Type :=
| Chr (c : ascii)                 (* a literal character *)
| Dot                             (* [.] under [re.DOTALL]: any character *)
| Cat (r1 r2 : regex)             (* r1 r2 *)
| LazyStar (r : regex)            (* r*?  *)
| AtLeast (n : nat) (r : regex)   (* r{n,} greedy *)
| Behind (r : regex)              (* (?<=r), r of fixed width *)
| Ahead (r : regex).              (* (?=r) *)

(** A position in the subject: the characters already passed (nearest
    first) and the characters still ahead. *)
Record cursor : Type := Cursor { seen : str; ahead : str }.

Definition cont : Type := cursor -> option cursor.

(** Width of a fixed-width pattern, as a lookbehind needs it. *)
Fixpoint width (r : regex) : nat :=
  match r with
  | Chr _ | Dot => 1
  | Cat r1 r2 => width r1 + width r2
  | _ => 0
  end.

Fixpoint rewind (n : nat) (p : cursor) : option cursor :=
  match n with
  | O => Some p
  | S n' =>
      match seen p with
      | [] => None
      | c :: s => rewind n' (Cursor s (c :: ahead p))
      end
  end.

(** [moved p q]: the cursor [q] lies strictly after [p]. *)
Definition moved (p q : cursor) : bool :=
  length (ahead q) <? length (ahead p).

(** [r*?]: first the rest of the pattern, and only when that fails one more
    round of [r].  A round that consumes nothing is not repeated, so there
    are no more rounds than characters ahead: [fuel] only makes the
    recursion structural and is never what ends the loop (see
    [lazy_loop_rounds] and [greedy_loop_rounds]). *)
Fixpoint lazy_loop (body : cont -> cont) (k : cont) (fuel : nat) (p : cursor)
  : option cursor :=
  match k p with
  | Some q => Some q
  | None =>
      match fuel with
      | O => None
      | S fuel' =>
          body (fun q => if moved p q then lazy_loop body k fuel' q else None) p
      end
  end.

(** [r{n,}]: as many rounds of [r] as possible, giving rounds back one at a
    time while the rest of the pattern fails, never below [n] rounds. *)
Fixpoint greedy_loop (body : cont -> cont) (k : cont) (n fuel : nat) (p : cursor)
  : option cursor :=
  let stop := match n with O => k p | S _ => None end in
  match fuel with
  | O => stop
  | S fuel' =>
      match body (fun q => if moved p q then greedy_loop body k (pred n) fuel' q
                           else None) p with
      | Some q => Some q
      | None => stop
      end
  end.

(** The matcher, in continuation-passing style: [exec r k p] matches [r] at
    [p] and hands the position after it to [k]; alternatives are tried in
    the engine's priority order and the first success is the answer. *)
Fixpoint exec (r : regex) (k : cont) (p : cursor) : option cursor :=
  match r with
  | Chr c =>
      match ahead p with
      | x :: xs => if Ascii.eqb x c then k (Cursor (x :: seen p) xs) else None
      | [] => None
      end
  | Dot =>
      match ahead p with
      | x :: xs => k (Cursor (x :: seen p) xs)
      | [] => None
      end
  | Cat r1 r2 => exec r1 (exec r2 k) p
  | LazyStar r1 => lazy_loop (exec r1) k (S (length (ahead p))) p
  | AtLeast n r1 => greedy_loop (exec r1) k n (S (length (ahead p))) p
  | Behind r1 =>
      match rewind (width r1) p with
      | Some p0 =>
          match exec r1 (fun q => if length (ahead q) =? length (ahead p)
                                  then Some q else None) p0 with
          | Some _ => k p
          | None => None
          end
      | None => None
      end
  | Ahead r1 =>
      match exec r1 Some p with
      | Some _ => k p
      | None => None
      end
  end.

(** [match_at r p]: the end of the match of [r] that starts at [p]. *)
Definition match_at (r : regex) (p : cursor) : option cursor := exec r Some p.

(** The scan shared by [findall] and [sub]: the subject cut into the
    characters outside every match and the matches, left to right, matches
    not overlapping.  [skip] counts the characters of the current match that
    are still to be passed.  After a match the scan goes on where the match
    ended; a lookbehind there sees the characters of the match.  Both
    patterns of the scripts match two characters or more, so the rules for
    empty matches play no part: after one the scan just moves on by a
    character. *)
Inductive piece : Type :=
| Lit (c : ascii)
| Hit (m : str).

Fixpoint pieces (r : regex) (skip : nat) (before after : str) : list piece :=
  match skip with
  | S skip' =>
      match after with
      | [] => []
      | c :: after' => pieces r skip' (c :: before) after'
      end
  | O =>
      match match_at r (Cursor before after) with
      | Some q =>
          let n := length after - length (ahead q) in
          Hit (take n after) ::
            match after with
            | [] => []
            | c :: after' =>
                match n with
                | O => Lit c :: pieces r 0 (c :: before) after'
                | S n' => pieces r n' (c :: before) after'
                end
            end
      | None =>
          match after with
          | [] => []
          | c :: after' => Lit c :: pieces r 0 (c :: before) after'
          end
      end
  end.

(** [re.findall(r, s)] for a pattern without capturing groups. *)
Definition findall (r : regex) (s : str) : list str :=
  flat_map (fun x => match x with Hit m => [m] | Lit _ => [] end)
           (pieces r 0 [] s).

(** [re.sub(r, repl, s)] for a replacement text without escapes. *)
Definition sub (r : regex) (repl : str) (s : str) : str :=
  flat_map (fun x => match x with Hit _ => repl | Lit c => [c] end)
           (pieces r 0 [] s).

End Re.

(** * [str.replace] *)

Fixpoint starts_with (old s : str) : bool :=
  match old, s with
  | [], _ => true
  | _ :: _, [] => false
  | a :: old', b :: s' => Ascii.eqb a b && starts_with old' s'
  end.

(** Occurrences are taken left to right and do not overlap; [skip] counts
    the characters of the occurrence just replaced that are still to be
    passed. *)
Fixpoint replace_from (old new : str) (skip : nat) (s : str) : str :=
  match s with
  | [] => []
  | c :: s' =>
      match skip with
      | S skip' => replace_from old new skip' s'
      | O =>
          if starts_with old s
          then new ++ replace_from old new (length old - 1) s'
          else c :: replace_from old new 0 s'
      end
  end.

(** [s.replace(old, new)].  An empty [old] matches between all characters. *)
Definition replace (old new s : str) : str :=
  match old with
  | [] => new ++ flat_map (fun c => c :: new) s
  | _ :: _ => replace_from old new 0 s
  end.

(** * [os.path.join], [str.endswith], [os.walk] *)

(** [s.endswith(suffix)] *)
Definition endswith (s suffix : string) : bool :=
  (String.length suffix <=? String.length s) &&
  String.eqb (substring (String.length s - String.length suffix)
                        (String.length suffix) s) suffix.

(** [os.path.join(a, b)] as posixpath defines it: an absolute [b] stands
    alone, otherwise [b] is appended, after a slash unless [a] is empty or
    ends with one. *)
Definition path_join (a b : string) : string :=
  if String.prefix "/" b then b
  else if String.eqb a "" || endswith a "/" then a +:+ b
  else a +:+ "/" +:+ b.

Local Unset Elimination Schemes.
(** A directory as [os.walk] sees it: its sub-directories by name and the
    names of its files. *)
Inductive dir : Type :=
| Dir (subdirs : list (string * dir)) (files : list string).
Local Set Elimination Schemes.

(** [os.walk(top)], top-down: one triple [(root, dirs, files)] per directory. *)
Fixpoint walk (top : string) (d : dir)
  : list (string * list string * list string) :=
  match d with
  | Dir subdirs files =>
      (top, map fst subdirs, files) ::
        flat_map (fun e => walk (path_join top (fst e)) (snd e)) subdirs
  end.

(** * The file system and the shared driver *)

(** File contents by the path they are opened under, and what was printed.
    A content is the text that [read()] returns and [write()] is given; the
    bytes, the encoding and the newline translation of the text layer are
    in [Disk] below. *)
Record world : Type :=
  World { contents : gmap string str; stdout : list string }.

(** [open(path, 'r').read()] on the texts: a file that cannot be read
    raises.  [Disk.read] below has the bytes. *)
Definition read_text (path : string) (fs : gmap string str) : option str :=
  fs !! path.

(** [open(path, 'w').write(content)] on the texts.  [Disk.write] below has
    the bytes. *)
Definition write_text (path : string) (content : str) (fs : gmap string str)
  : gmap string str :=
  <[path := content]> fs.

Section Driver.
(** The per-file function of the script. *)
Variable fix_file : string -> gmap string str -> option (gmap string str).

(** The body of the inner loop, for one [file] of [files]. *)
Definition visit (root : string) (w : option world) (file : string)
  : option world :=
  match w with
  | None => None
  | Some w =>
      if endswith file ".md" then
        let file_path := path_join root file in
        let out := stdout w ++ ["Processing " +:+ file_path] in
        match fix_file file_path (contents w) with
        | Some fs => Some (World fs out)
        | None => None
        end
      else Some w
  end.

(** [for root, _, files in os.walk(directory): for file in files: ...] *)
Definition process_tree (directory : string) (d : dir) (w : world)
  : option world :=
  fold_left (fun w t => fold_left (visit (fst (fst t))) (snd t) w)
            (walk directory d) (Some w).
End Driver.

(** * The two patterns *)

Import Re.

(** [r'\n{2,}'] *)
Definition blank_re : regex := AtLeast 2 (Chr nl).

(** One row of [r'\|.*?\|'] *)
Definition table_row : regex := Cat (Chr pipe) (Cat (LazyStar Dot) (Chr pipe)).

(** [r'(?<=\n)\|.*?\|(?:\n\|.*?\|)*?(?=\n)'] with [re.DOTALL] *)
Definition table_re : regex :=
  Cat (Behind (Chr nl))
      (Cat table_row
           (Cat (LazyStar (Cat (Chr nl) table_row))
                (Ahead (Chr nl)))).

(** * fix_multiple_blanks.py *)

Module FixMultipleBlanks.

(** Lines 11-12: the text that is written back. *)
Definition normalize (file_path : string) (content : str) : str :=
  if decide (file_path <> "CHANGELOG.md")
  then sub blank_re [nl; nl] content
  else content.

Definition fix_multiple_blanks (file_path : string) (fs : gmap string str)
  : option (gmap string str) :=
  match read_text file_path fs with
  | Some content => Some (write_text file_path (normalize file_path content) fs)
  | None => None
  end.

Definition process_directory : string -> dir -> world -> option world :=
  process_tree fix_multiple_blanks.

(** [process_directory('.')], on the tree [d] found at ['.']. *)
Definition main (d : dir) (w : world) : option world :=
  process_directory "." d w.

End FixMultipleBlanks.

(** * fix_tables.py *)

Module FixTables.

(** Lines 15-16: the body of the loop. *)
Definition pad_table (content table : str) : str :=
  let table_with_blanks := [nl] ++ table ++ [nl] in
  replace table table_with_blanks content.

(** Lines 11-16: the text that is written back. *)
Definition space_tables (content : str) : str :=
  let tables := findall table_re content in
  fold_left pad_table tables content.

Definition fix_table_formatting (file_path : string) (fs : gmap string str)
  : option (gmap string str) :=
  match read_text file_path fs with
  | Some content => Some (write_text file_path (space_tables content) fs)
  | None => None
  end.

Definition process_directory : string -> dir -> world -> option world :=
  process_tree fix_table_formatting.

(** [process_directory('docs/api/formatters')] *)
Definition main (d : dir) (w : world) : option world :=
  process_directory "docs/api/formatters" d w.

End FixTables.

Import FixMultipleBlanks FixTables.

(** * Vocabulary of the properties *)

(** The number of newlines at the start of a text. *)
Fixpoint leading (a : str) : nat :=
  match a with
  | c :: a' => if Ascii.eqb c nl then S (leading a') else 0
  | [] => 0
  end.

(** The cursor moved over the newlines at it. *)
Fixpoint skip_newlines (s a : str) : cursor :=
  match a with
  | c :: a' => if Ascii.eqb c nl then skip_newlines (c :: s) a' else Cursor s a
  | [] => Cursor s a
  end.

(** The blank-line rewrite read character by character: a newline is
    dropped when [n >= 2] newlines stand directly before it. *)
Fixpoint squeeze (n : nat) (s : str) : str :=
  match s with
  | [] => []
  | c :: s' =>
      if Ascii.eqb c nl
      then (if 2 <=? n then squeeze n s' else c :: squeeze (S n) s')
      else c :: squeeze 0 s'
  end.

(** [runs_below n s]: no run of newlines in [s] reaches three, the first
    run counted from [n]. *)
Fixpoint runs_below (n : nat) (s : str) : bool :=
  match s with
  | [] => true
  | c :: s' =>
      if Ascii.eqb c nl then (n <? 2) && runs_below (S n) s'
      else runs_below 0 s'
  end.

Definition ends_with_nl (s : str) : bool :=
  match last s with Some c => Ascii.eqb c nl | None => false end.

Definition begins_with_nl (s : str) : bool :=
  match s with c :: _ => Ascii.eqb c nl | [] => false end.

Definition begins_with_pipe (s : str) : bool :=
  match s with c :: _ => Ascii.eqb c pipe | [] => false end.

(** The first position at or after the cursor where [k] succeeds. *)
Fixpoint first_success (k : cont) (s a : str) : option cursor :=
  match k (Cursor s a) with
  | Some q => Some q
  | None =>
      match a with
      | [] => None
      | c :: a' => first_success k (c :: s) a'
      end
  end.

(** What is left of the table pattern once a closing pipe is reached:
    the lazy group and the lookahead.  The group begins with a newline, so
    it is only ever tried where the lookahead has just failed on the same
    character: it never takes a round. *)
Definition after_row : cont :=
  exec (LazyStar (Cat (Chr nl) table_row)) (exec (Ahead (Chr nl)) Some).

(** The closing pipe of a row: a pipe directly before a newline. *)
Definition closes (p : cursor) : option cursor :=
  match ahead p with
  | c :: d :: r =>
      if Ascii.eqb c pipe && Ascii.eqb d nl
      then Some (Cursor (c :: seen p) (d :: r)) else None
  | _ => None
  end.

(** A table match: the cursor is directly after a newline and at a pipe;
    the match ends after the first later pipe that is directly before a
    newline. *)
Definition table_at (before after : str) : option cursor :=
  match before, after with
  | b :: _, c :: after' =>
      if Ascii.eqb b nl && Ascii.eqb c pipe
      then first_success closes (c :: before) after'
      else None
  | _, _ => None
  end.

(** [has_close s]: somewhere in [s] a pipe stands directly before a
    newline. *)
Fixpoint has_close (s : str) : bool :=
  match s with
  | c :: s' =>
      match s' with
      | d :: _ => Ascii.eqb c pipe && Ascii.eqb d nl
      | [] => false
      end || has_close s'
  | [] => false
  end.

Definition prev_nl (before : str) : bool :=
  match before with b :: _ => Ascii.eqb b nl | [] => false end.

(** [table_ahead after_nl s]: somewhere in [s] a pipe stands directly after
    a newline and, later, a pipe stands directly before a newline.
    [after_nl] tells whether a newline stands directly before [s]. *)
Fixpoint table_ahead (after_nl : bool) (s : str) : bool :=
  match s with
  | [] => false
  | c :: s' =>
      (after_nl && Ascii.eqb c pipe && has_close s')
      || table_ahead (Ascii.eqb c nl) s'
  end.

(** The content has a place where the table pattern matches. *)
Definition has_table (s : str) : bool := table_ahead false s.

(** [inserted s s']: [s'] is [s] with newlines inserted. *)
Inductive inserted : str -> str -> Prop :=
| inserted_nil : inserted [] []
| inserted_keep c s s' : inserted s s' -> inserted (c :: s) (c :: s')
| inserted_new s s' : inserted s s' -> inserted s (nl :: s').

(** [all_replaced old new s s']: [s'] is [s] with every occurrence of [old],
    taken left to right without overlap, replaced by [new]. *)
Inductive all_replaced (old new : str) : str -> str -> Prop :=
| replaced_rest s :
    (forall x y, s <> x ++ old ++ y) ->
    all_replaced old new s s
| replaced_next a b b' :
    (forall x y, a ++ old ++ b = x ++ old ++ y -> length a <= length x) ->
    all_replaced old new b b' ->
    all_replaced old new (a ++ old ++ b) (a ++ new ++ b').

(** [pads ts doc doc']: the loop of the table spacer over the matches [ts],
    each step replacing every occurrence of the match in the document as it
    stands by then. *)
Inductive pads : list str -> str -> str -> Prop :=
| pads_done doc : pads [] doc doc
| pads_step t ts doc doc' doc'' :
    all_replaced t ([nl] ++ t ++ [nl]) doc doc' ->
    pads ts doc' doc'' ->
    pads (t :: ts) doc doc''.

(** The number of places where [old] starts in [s]. *)
Fixpoint occurrences (old s : str) : nat :=
  match s with
  | [] => 0
  | _ :: s' => (if starts_with old s then 1 else 0) + occurrences old s'
  end.

(** [s.split('\n')] *)
Fixpoint split_nl (s : str) : list str :=
  match s with
  | [] => [[]]
  | c :: s' =>
      if Ascii.eqb c nl then [] :: split_nl s'
      else match split_nl s' with
           | l :: ls => (c :: l) :: ls
           | [] => [[c]]
           end
  end.

(** A line that begins and ends with a pipe. *)
Definition pipe_line (l : str) : bool :=
  match l with c :: _ => Ascii.eqb c pipe | [] => false end &&
  match last l with Some c => Ascii.eqb c pipe | None => false end.

(** A pipe-delimited block: a run of lines each beginning and ending with a
    pipe. *)
Definition pipe_block (b : str) : bool := forallb pipe_line (split_nl b).

(** [padded_once block s]: [block] stands in [s] with exactly one blank
    line directly before it and exactly one directly after it: two newlines
    on either side, a character other than a newline before them and no
    third newline after them.  [after_text] tells whether a character other
    than a newline stands directly before [s]. *)
Fixpoint padded_from (after_text : bool) (block s : str) : bool :=
  match s with
  | [] => false
  | c :: s' =>
      (after_text
       && starts_with ([nl; nl] ++ block ++ [nl; nl]) s
       && negb (begins_with_nl (drop (length block + 4) s)))
      || padded_from (negb (Ascii.eqb c nl)) block s'
  end.

Definition padded_once (block s : str) : bool := padded_from false block s.

(** The number of pipes in [s] that stand directly after a newline;
    [after_nl] tells whether a newline stands directly before [s]. *)
Fixpoint count_starts (after_nl : bool) (s : str) : nat :=
  match s with
  | [] => 0
  | c :: s' =>
      (if after_nl && Ascii.eqb c pipe then 1 else 0)
      + count_starts (Ascii.eqb c nl) s'
  end.

(** The text ends with a character other than a newline. *)
Definition ends_with_text (s : str) : bool :=
  match last s with Some c => negb (Ascii.eqb c nl) | None => false end.

(** A name as a directory listing gives it does not begin with a slash
    (it holds no slash at all). *)
Definition name_ok (name : string) : bool := negb (String.prefix "/" name).

Fixpoint names_ok (d : dir) : bool :=
  match d with
  | Dir subdirs files =>
      forallb name_ok files &&
      forallb (fun e => name_ok (fst e) && names_ok (snd e)) subdirs
  end.

(** A walk root under ['.']: ['.'] itself or a path that begins with ['./']. *)
Definition rooted (root : string) : bool :=
  String.eqb root "." || String.prefix "./" root.

(** The paths that the driver hands to the per-file function, in order. *)
Definition md_paths (directory : string) (d : dir) : list string :=
  flat_map (fun t => map (path_join (fst (fst t)))
                         (List.filter (fun file => endswith file ".md") (snd t)))
           (walk directory d).

(** The body of the loop for one path: print, then fix the file. *)
Definition visit_path
           (fix_file : string -> gmap string str -> option (gmap string str))
           (w : option world) (file_path : string) : option world :=
  match w with
  | None => None
  | Some w =>
      match fix_file file_path (contents w) with
      | Some fs => Some (World fs (stdout w ++ ["Processing " +:+ file_path]))
      | None => None
      end
  end.

(** A tree with a CHANGELOG.md at the walk root and one further down. *)
Definition sample_tree : dir :=
  Dir [("docs", Dir [] ["CHANGELOG.md"; "notes.txt"])]
      ["CHANGELOG.md"; "readme.md"; "notes.txt"].

Definition sample_files : gmap string str :=
  <["./CHANGELOG.md" := py "a\n\n\n\nb\n"]>
    (<["./readme.md" := py "line1\n\n\n\nline2\n"]>
       (<["./docs/CHANGELOG.md" := py "\n\n\n"]>
          (<["./notes.txt" := py "x\n\n\n"]> ∅))).

(** The inputs of the scenarios. *)
Definition scenario_A : str := py "line1\n\n\n\nline2\n".
Definition scenario_B : str := py "text\n|a|b|\n|c|d|\nmore text\n".
Definition scenario_C : str := py "a\n\n\n\nb\n".

(** A line with a character on it, and the lines of a text that are not
    blank, in order. *)
Definition nonblank (l : str) : bool :=
  match l with [] => false | _ :: _ => true end.

Definition nonblank_lines (s : str) : list str :=
  List.filter nonblank (split_nl s).

(** The characters of a text other than its newlines. *)
Definition without_newlines (s : str) : str :=
  List.filter (fun c => negb (Ascii.eqb c nl)) s.


(** A per-file function that reads the file, rewrites its text with [f] and
    writes it back; both scripts have one of this shape. *)
Definition rewrites (f : string -> str -> str)
           (fix_file : string -> gmap string str -> option (gmap string str))
  : Prop :=
  forall p fs, fix_file p fs =
               match read_text p fs with
               | Some c => Some (write_text p (f p c) fs)
               | None => None
               end.

(** A tree as found at docs/api/formatters, and files in and out of it. *)
Definition docs_tree : dir :=
  Dir [("sub", Dir [] ["b.md"])] ["a.md"; "notes.txt"].


(** A text without a newline. *)
Definition one_line (t : str) : bool :=
  forallb (fun c => negb (Ascii.eqb c nl)) t.

(** [s.endswith(t)] on texts. *)
Definition ends_with (s t : str) : bool := starts_with (rev t) (rev s).

(** The newlines around a row, before and after the row has been padded. *)
Definition zone (padded : bool) (row : str) : str :=
  if padded then [nl; nl] ++ row ++ [nl; nl] else [nl] ++ row ++ [nl].

(** How often the text [t] is in the list [ts]. *)
Fixpoint count_text (t : str) (ts : list str) : nat :=
  match ts with
  | [] => 0
  | x :: ts' => (if bool_decide (x = t) then 1 else 0) + count_text t ts'
  end.

(** [clear_of pre row post t]: the match [t] lies on one line and keeps clear
    of the row: it is the row itself or its text does not occur in the row,
    the text before the row does not end with it and the text after the row
    does not begin with it. *)
Definition clear_of (pre row post t : str) : bool :=
  one_line t
  && (bool_decide (t = row) || (occurrences t row =? 0))
  && negb (ends_with pre t)
  && negb (starts_with t post).

(** [in_tree top d file path]: the tree [d], walked from [top], holds a
    file named [file], in its own directory or further down, and [path] is
    the path of that directory joined with the name. *)
Inductive in_tree : string -> dir -> string -> string -> Prop :=
| in_here (top : string) (subdirs : list (string * dir))
          (files : list string) (file : string) :
    In file files ->
    in_tree top (Dir subdirs files) file (path_join top file)
| in_sub (top : string) (subdirs : list (string * dir))
         (files : list string) (name : string) (sub : dir)
         (file path : string) :
    In (name, sub) subdirs ->
    in_tree (path_join top name) sub file path ->
    in_tree top (Dir subdirs files) file path.

(** * The files on disk *)

(** Carriage return. *)
Definition cr : ascii := "013"%char.

(** A text without a carriage return. *)
Definition no_cr (s : str) : bool :=
  forallb (fun c => negb (Ascii.eqb c cr)) s.

(** The bytes behind the texts: what [open(path, 'r')] and [open(path, 'w')]
    do around [read()] and [write()]. *)
Module Disk.

(** What the scripts take from the platform: the preferred encoding, which
    can refuse bytes on decoding and a text on encoding, and [os.linesep]. *)
Record platform : Type :=
  Platform { decode : list ascii -> option str;
             encode : str -> option (list ascii);
             linesep : str }.

(** A file: its bytes, and whether it can be opened for reading and for
    writing. *)
Record file : Type :=
  File { data : list ascii; readable : bool; writable : bool }.

(** Text mode on reading (newline=None): a carriage return with a newline
    after it, and a carriage return alone, become a newline. *)
Fixpoint universal_newlines (s : str) : str :=
  match s with
  | [] => []
  | c :: s' =>
      if Ascii.eqb c cr then
        nl :: match s' with
              | d :: s'' =>
                  if Ascii.eqb d nl then universal_newlines s''
                  else universal_newlines s'
              | [] => []
              end
      else c :: universal_newlines s'
  end.

(** Text mode on writing (newline=None): a newline becomes [os.linesep]. *)
Definition platform_newlines (sep : str) (s : str) : str :=
  flat_map (fun c => if Ascii.eqb c nl then sep else [c]) s.

Section OnPlatform.
Variable pf : platform.

(** The text that [read()] returns for a file that has been opened. *)
Definition text_of (f : file) : option str :=
  match decode pf (data f) with
  | Some text => Some (universal_newlines text)
  | None => None
  end.

(** [open(path, 'r').read()]: a missing file, a file that cannot be opened
    for reading and bytes that cannot be decoded raise. *)
Definition read (path : string) (disk : gmap string file) : option str :=
  match disk !! path with
  | Some f => if readable f then text_of f else None
  | None => None
  end.

(** [open(path, 'w').write(content)]: a file that cannot be opened for
    writing and a text that cannot be encoded raise; a file that is not
    there is created. *)
Definition write (path : string) (content : str) (disk : gmap string file)
  : option (gmap string file) :=
  let mode := match disk !! path with
              | Some f => (readable f, writable f)
              | None => (true, true)
              end in
  if snd mode then
    match encode pf (platform_newlines (linesep pf) content) with
    | Some bytes => Some (<[path := File bytes (fst mode) (snd mode)]> disk)
    | None => None
    end
  else None.

(** [fix_multiple_blanks(file_path)] of fix_multiple_blanks.py, on disk. *)
Definition fix_multiple_blanks (file_path : string) (disk : gmap string file)
  : option (gmap string file) :=
  match read file_path disk with
  | Some content => write file_path (normalize file_path content) disk
  | None => None
  end.

(** [fix_table_formatting(file_path)] of fix_tables.py, on disk. *)
Definition fix_table_formatting (file_path : string)
           (disk : gmap string file) : option (gmap string file) :=
  match read file_path disk with
  | Some content => write file_path (space_tables content) disk
  | None => None
  end.

(** The texts that the files of a disk give when they are read. *)
Definition view (disk : gmap string file) : gmap string str :=
  omap (fun f => if readable f then text_of f else None) disk.

End OnPlatform.

(** Two platforms on which every byte is a character (Latin-1): one with
    the line separator of POSIX, one with that of Windows. *)
Definition posix_latin1 : platform := Platform Some Some [nl].
Definition windows_latin1 : platform := Platform Some Some [cr; nl].

(** The encoding gives back the text it encoded, and the line separator is
    one that reading turns back into a newline. *)
Definition lawful (pf : platform) : Prop :=
  (forall t b, encode pf t = Some b -> decode pf b = Some t) /\
  (linesep pf = [nl] \/ linesep pf = [cr; nl] \/ linesep pf = [cr]).

End Disk.

(** * Facts about the engine on the two patterns *)

Section EngineFacts.

Definition extensional (body : cont -> cont) : Prop :=
  forall k1 k2 p, (forall q, k1 q = k2 q) -> body k1 p = body k2 p.

Lemma lazy_loop_ext (body : cont -> cont) :
  extensional body ->
  forall fuel k1 k2 p, (forall q, k1 q = k2 q) ->
    lazy_loop body k1 fuel p = lazy_loop body k2 fuel p.
Proof.
  intros Hb fuel. induction fuel as [|fuel IH]; intros k1 k2 p E;
    cbn [lazy_loop]; rewrite E; [reflexivity|].
  destruct (k2 p); [reflexivity|]. apply Hb. intros q.
  destruct (moved p q); [apply IH, E | reflexivity].
Qed.

Lemma greedy_loop_ext (body : cont -> cont) :
  extensional body ->
  forall fuel n k1 k2 p, (forall q, k1 q = k2 q) ->
    greedy_loop body k1 n fuel p = greedy_loop body k2 n fuel p.
Proof.
  intros Hb fuel. induction fuel as [|fuel IH]; intros n k1 k2 p E;
    cbn [greedy_loop]; rewrite E; [reflexivity|].
  rewrite (Hb _ (fun q => if moved p q
                          then greedy_loop body k2 (pred n) fuel q else None)).
  - reflexivity.
  - intros q. destruct (moved p q); [apply IH, E | reflexivity].
Qed.

Lemma exec_ext (r : regex) : extensional (exec r).
Proof.
  induction r as [c| |r1 IH1 r2 IH2|r1 IH1|n r1 IH1|r1 IH1|r1 IH1];
    intros k1 k2 p E; cbn [exec].
  - destruct (ahead p) as [|x xs]; [reflexivity|].
    destruct (Ascii.eqb x c); [apply E | reflexivity].
  - destruct (ahead p); [reflexivity | apply E].
  - apply IH1. intros q. apply IH2, E.
  - apply lazy_loop_ext; assumption.
  - apply greedy_loop_ext; assumption.
  - rewrite E. reflexivity.
  - rewrite E. reflexivity.
Qed.

(** More fuel than characters ahead is all the same. *)
Lemma lazy_loop_rounds (body : cont -> cont) (k : cont) :
  extensional body ->
  forall n p f1 f2, length (ahead p) <= n -> n < f1 -> n < f2 ->
    lazy_loop body k f1 p = lazy_loop body k f2 p.
Proof.
  intros Hb n. induction n as [|n IH]; intros p f1 f2 Hp H1 H2;
    (destruct f1 as [|f1]; [lia|]); (destruct f2 as [|f2]; [lia|]);
    cbn [lazy_loop]; (destruct (k p); [reflexivity|]); apply Hb; intros q;
    unfold moved; destruct (length (ahead q) <? length (ahead p)) eqn:E;
    try reflexivity; apply Nat.ltb_lt in E; [lia|].
  apply IH; lia.
Qed.

Lemma greedy_loop_rounds (body : cont -> cont) (k : cont) :
  extensional body ->
  forall n p m f1 f2, length (ahead p) <= n -> n < f1 -> n < f2 ->
    greedy_loop body k m f1 p = greedy_loop body k m f2 p.
Proof.
  intros Hb n. induction n as [|n IH]; intros p m f1 f2 Hp H1 H2;
    (destruct f1 as [|f1]; [lia|]); (destruct f2 as [|f2]; [lia|]);
    cbn [greedy_loop];
    rewrite (Hb _ (fun q => if moved p q
                            then greedy_loop body k (pred m) f2 q else None));
    try reflexivity; intros q;
    unfold moved; destruct (length (ahead q) <? length (ahead p)) eqn:E;
    try reflexivity; apply Nat.ltb_lt in E; [lia|].
  apply IH; lia.
Qed.

Lemma first_success_ext (k1 k2 : cont) :
  (forall p, k1 p = k2 p) ->
  forall a s, first_success k1 s a = first_success k2 s a.
Proof.
  intros E a. induction a as [|x a IH]; intros s; cbn [first_success];
    rewrite E; [reflexivity|]. rewrite IH. reflexivity.
Qed.

Lemma lazy_dot (k : cont) (fuel : nat) :
  forall (a s : str), length a < fuel ->
    lazy_loop (exec Dot) k fuel (Cursor s a) = first_success k s a.
Proof.
  induction fuel as [|fuel IH]; intros a s Hlt; [lia|].
  destruct a as [|c a]; simpl.
  - destruct (k (Cursor s [])); reflexivity.
  - destruct (k (Cursor s (c :: a))); [reflexivity|].
    unfold moved; simpl.
    replace (length a <? S (length a)) with true
      by (symmetry; apply Nat.ltb_lt; lia).
    apply IH. simpl in Hlt. lia.
Qed.

Lemma after_row_spec (s a : str) :
  after_row (Cursor s a) =
    match a with
    | c :: _ => if Ascii.eqb c nl then Some (Cursor s a) else None
    | [] => None
    end.
Proof.
  unfold after_row. destruct a as [|c a]; simpl; [reflexivity|].
  destruct (Ascii.eqb c nl); reflexivity.
Qed.

Lemma close_spec (p : cursor) : exec (Chr pipe) after_row p = closes p.
Proof.
  destruct p as [s a]. unfold closes.
  destruct a as [|c a]; [reflexivity|].
  cbn [exec ahead seen]. rewrite after_row_spec.
  destruct (Ascii.eqb c pipe), a as [|d r]; reflexivity.
Qed.

Lemma match_at_table (before after : str) :
  match_at table_re (Cursor before after) = table_at before after.
Proof.
  unfold match_at, table_at, table_re, table_row.
  destruct before as [|b before].
  { destruct after; reflexivity. }
  cbn [exec width rewind seen ahead Nat.add].
  destruct (Ascii.eqb b nl) eqn:Hb; cbn [andb].
  2:{ destruct after; reflexivity. }
  rewrite Nat.eqb_refl.
  destruct after as [|c after']; [reflexivity|].
  destruct (Ascii.eqb c pipe) eqn:Hc; [|reflexivity].
  cbn [seen ahead].
  rewrite lazy_dot by lia.
  fold after_row.
  apply first_success_ext, close_spec.
Qed.

End EngineFacts.

(** * Facts about the scan *)

Section ScanFacts.
Variable r : regex.

Lemma pieces_skip (x : str) :
  forall (before y : str),
    pieces r (length x) before (x ++ y) = pieces r 0 (rev x ++ before) y.
Proof.
  induction x as [|c x IH]; intros before y; [reflexivity|].
  cbn [length app pieces rev]. rewrite IH, <- app_assoc. reflexivity.
Qed.

Lemma pieces_hit (before m y : str) :
  m <> [] ->
  match_at r (Cursor before (m ++ y)) = Some (Cursor (rev m ++ before) y) ->
  pieces r 0 before (m ++ y) = Hit m :: pieces r 0 (rev m ++ before) y.
Proof.
  intros Hm E. destruct m as [|c m]; [congruence|].
  cbn [app] in E |- *. cbn [pieces]. rewrite E. cbn [ahead].
  replace (length (c :: m ++ y) - length y) with (S (length m))
    by (cbn [length]; rewrite length_app; lia).
  f_equal.
  - cbn [take]. rewrite take_app_length. reflexivity.
  - rewrite pieces_skip. cbn [rev]. rewrite <- app_assoc. reflexivity.
Qed.

Lemma pieces_miss (before : str) (c : ascii) (a : str) :
  match_at r (Cursor before (c :: a)) = None ->
  pieces r 0 before (c :: a) = Lit c :: pieces r 0 (c :: before) a.
Proof. intros E. cbn [pieces]. rewrite E. reflexivity. Qed.

Lemma pieces_end (before : str) :
  match_at r (Cursor before []) = None -> pieces r 0 before [] = [].
Proof. intros E. cbn [pieces]. rewrite E. reflexivity. Qed.
End ScanFacts.

(** * The blank-line pattern *)

Section BlankFacts.

Lemma leading_split (a : str) :
  a = repeat nl (leading a) ++ drop (leading a) a /\
  leading (drop (leading a) a) = 0.
Proof.
  induction a as [|c a [IH1 IH2]]; [split; reflexivity|].
  cbn [leading]. destruct (Ascii.eqb c nl) eqn:E.
  - apply Ascii.eqb_eq in E. subst c. cbn [repeat drop app]. split.
    + f_equal. exact IH1.
    + exact IH2.
  - cbn [repeat drop app leading]. rewrite E. split; reflexivity.
Qed.

Lemma skip_newlines_spec (a s : str) :
  skip_newlines s a =
    Cursor (rev (repeat nl (leading a)) ++ s) (drop (leading a) a).
Proof.
  revert s. induction a as [|c a IH]; intros s; [reflexivity|].
  cbn [skip_newlines leading]. destruct (Ascii.eqb c nl) eqn:E; [|reflexivity].
  apply Ascii.eqb_eq in E. subst c. rewrite IH.
  cbn [repeat rev drop]. rewrite <- app_assoc. reflexivity.
Qed.

Lemma greedy_newlines (fuel : nat) :
  forall (a s : str) (n : nat), length a < fuel ->
    greedy_loop (exec (Chr nl)) Some n fuel (Cursor s a) =
      if n <=? leading a then Some (skip_newlines s a) else None.
Proof.
  induction fuel as [|fuel IH]; intros a s n Hlt; [lia|].
  cbn [greedy_loop exec ahead seen].
  destruct a as [|c a].
  { cbn [leading skip_newlines]. destruct n; reflexivity. }
  cbn [leading skip_newlines]. destruct (Ascii.eqb c nl) eqn:E.
  - unfold moved. cbn [ahead length].
    replace (length a <? S (length a)) with true
      by (symmetry; apply Nat.ltb_lt; lia).
    rewrite IH by (cbn [length] in Hlt; lia).
    destruct n as [|n]; cbn [pred].
    + reflexivity.
    + change (S n <=? S (leading a)) with (n <=? leading a).
      destruct (n <=? leading a); reflexivity.
  - destruct n; reflexivity.
Qed.

Lemma match_at_blank (before after : str) :
  match_at blank_re (Cursor before after) =
    if 2 <=? leading after then Some (skip_newlines before after) else None.
Proof.
  unfold match_at, blank_re. cbn [exec ahead].
  apply greedy_newlines. lia.
Qed.

Lemma squeeze_fresh (n : nat) (y : str) :
  leading y = 0 -> squeeze n y = squeeze 0 y.
Proof.
  destruct y as [|c y]; [reflexivity|]. cbn [leading squeeze].
  destruct (Ascii.eqb c nl); [discriminate | reflexivity].
Qed.

Lemma squeeze_full (k : nat) (y : str) :
  squeeze 2 (repeat nl k ++ y) = squeeze 2 y.
Proof. induction k as [|k IH]; [reflexivity|]. exact IH. Qed.

Lemma squeeze_run (k : nat) (y : str) :
  leading y = 0 ->
  squeeze 0 (repeat nl (S (S k)) ++ y) = nl :: nl :: squeeze 0 y.
Proof.
  intros Hy. change (squeeze 0 (repeat nl (S (S k)) ++ y))
    with (nl :: nl :: squeeze 2 (repeat nl k ++ y)).
  rewrite squeeze_full, (squeeze_fresh 2) by exact Hy. reflexivity.
Qed.

(** [re.sub] with the blank-line pattern is the character-wise rewrite. *)
Lemma sub_blank_from (n : nat) :
  forall (after before : str), length after <= n ->
    flat_map (fun x => match x with Hit _ => [nl; nl] | Lit c => [c] end)
             (pieces blank_re 0 before after) = squeeze 0 after.
Proof.
  induction n as [|n IH]; intros after before Hn.
  { destruct after; [|cbn [length] in Hn; lia].
    rewrite pieces_end by (rewrite match_at_blank; reflexivity). reflexivity. }
  pose proof (match_at_blank before after) as M.
  rewrite skip_newlines_spec in M.
  destruct (leading_split after) as [Ha Hy].
  remember (leading after) as k eqn:Ek.
  remember (drop k after) as y eqn:Ey. clear Ek Ey. subst after.
  destruct k as [|[|k]]; cbn [Nat.leb] in M.
  - cbn [repeat app] in *. destruct y as [|c y].
    { rewrite pieces_end by exact M. reflexivity. }
    rewrite pieces_miss by exact M. cbn [flat_map app].
    rewrite IH by (cbn [length] in Hn; lia).
    cbn [leading squeeze] in *. destruct (Ascii.eqb c nl); [discriminate|].
    reflexivity.
  - cbn [repeat app] in *. rewrite pieces_miss by exact M. cbn [flat_map app].
    rewrite IH by (cbn [length] in Hn; lia).
    change (squeeze 0 (nl :: y)) with (nl :: squeeze 1 y).
    rewrite (squeeze_fresh 1) by exact Hy. reflexivity.
  - rewrite pieces_hit by (try exact M; discriminate).
    cbn [flat_map]. rewrite IH.
    + rewrite (squeeze_run k y Hy). reflexivity.
    + rewrite length_app in Hn. cbn [repeat length] in Hn. lia.
Qed.

Lemma sub_blank (s : str) : sub blank_re [nl; nl] s = squeeze 0 s.
Proof. unfold sub. apply (sub_blank_from (length s)). lia. Qed.

End BlankFacts.

(** * The table pattern *)

Section TableFacts.

Lemma first_closes_none (a : str) :
  forall s, first_success closes s a = None <-> has_close a = false.
Proof.
  induction a as [|c a IH]; intros s; cbn [first_success has_close].
  { unfold closes; cbn [ahead]. tauto. }
  unfold closes at 1; cbn [ahead seen].
  destruct a as [|d r].
  - cbn [first_success has_close]. unfold closes; cbn [ahead]. tauto.
  - destruct (Ascii.eqb c pipe && Ascii.eqb d nl); cbn [orb].
    + split; discriminate.
    + apply IH.
Qed.

Lemma first_closes_some (a : str) :
  forall s q, first_success closes s a = Some q ->
    exists u w, a = u ++ pipe :: nl :: w /\
                q = Cursor (pipe :: rev u ++ s) (nl :: w) /\
                has_close (u ++ [pipe]) = false.
Proof.
  induction a as [|c a IH]; intros s q; cbn [first_success].
  { unfold closes; cbn [ahead]. discriminate. }
  unfold closes at 1; cbn [ahead seen].
  assert (Later : first_success closes (c :: s) a = Some q ->
                  (forall d r, a = d :: r ->
                               Ascii.eqb c pipe && Ascii.eqb d nl = false) ->
                  exists u w, c :: a = u ++ pipe :: nl :: w /\
                              q = Cursor (pipe :: rev u ++ s) (nl :: w) /\
                              has_close (u ++ [pipe]) = false).
  { intros E Hc. destruct (IH _ _ E) as (u & w & -> & -> & Hu).
    exists (c :: u), w. split; [reflexivity|]. split.
    - cbn [rev]. rewrite <- app_assoc. reflexivity.
    - cbn [app has_close]. rewrite Hu, orb_false_r.
      destruct u as [|d u]; cbn [app] in *; eapply Hc; reflexivity. }
  destruct a as [|d r].
  - intros E. apply Later; [exact E | discriminate].
  - destruct (Ascii.eqb c pipe && Ascii.eqb d nl) eqn:E.
    + intros [= <-]. apply andb_true_iff in E as [Ec Ed].
      apply Ascii.eqb_eq in Ec, Ed. subst c d.
      exists [], r. repeat split.
    + intros E'. apply Later; [exact E'|]. intros ? ? [= <- <-]. exact E.
Qed.

Lemma first_closes_app (u : str) :
  forall s w, has_close (u ++ [pipe]) = false ->
    first_success closes s (u ++ pipe :: nl :: w) =
      Some (Cursor (pipe :: rev u ++ s) (nl :: w)).
Proof.
  induction u as [|c u IH]; intros s w Hu.
  { reflexivity. }
  cbn [app has_close] in Hu. apply orb_false_iff in Hu as [Hc Hu].
  cbn [app first_success]. unfold closes at 1; cbn [ahead seen].
  assert (E : match u ++ pipe :: nl :: w with
              | d :: r => if Ascii.eqb c pipe && Ascii.eqb d nl
                          then Some (Cursor (c :: s) (d :: r)) else None
              | [] => None
              end = None).
  { destruct u as [|d u]; cbn [app] in *; rewrite Hc; reflexivity. }
  rewrite E, IH by exact Hu. cbn [rev]. rewrite <- app_assoc. reflexivity.
Qed.

Lemma table_at_nil (before : str) : table_at before [] = None.
Proof. destruct before; reflexivity. Qed.

Lemma table_at_none (before : str) (c : ascii) (a : str) :
  table_at before (c :: a) = None <->
  prev_nl before && Ascii.eqb c pipe && has_close a = false.
Proof.
  unfold table_at, prev_nl. destruct before as [|b before]; [tauto|].
  destruct (Ascii.eqb b nl && Ascii.eqb c pipe); cbn [andb]; [|tauto].
  apply first_closes_none.
Qed.

(** A match of the table pattern: it starts directly after a newline, is
    a pipe, any text without a pipe directly before a newline, and a pipe,
    and a newline follows it. *)
Lemma table_at_some (before after : str) (q : cursor) :
  table_at before after = Some q ->
  exists b u w,
    before = nl :: b /\
    after = (pipe :: u ++ [pipe]) ++ nl :: w /\
    q = Cursor (rev (pipe :: u ++ [pipe]) ++ before) (nl :: w) /\
    has_close (u ++ [pipe]) = false.
Proof.
  unfold table_at. destruct before as [|b before]; [discriminate|].
  destruct after as [|c after]; [discriminate|].
  destruct (Ascii.eqb b nl && Ascii.eqb c pipe) eqn:E; [|discriminate].
  apply andb_true_iff in E as [Eb Ec]. apply Ascii.eqb_eq in Eb, Ec. subst b c.
  intros E. apply first_closes_some in E as (u & w & -> & -> & Hu).
  exists before, u, w. split; [reflexivity|]. split; [|split; [|exact Hu]].
  - cbn [app]. rewrite <- app_assoc. reflexivity.
  - f_equal. cbn [rev]. rewrite rev_app_distr. cbn [rev app].
    rewrite <- !app_assoc. reflexivity.
Qed.

Lemma table_at_row (b u w : str) :
  has_close (u ++ [pipe]) = false ->
  table_at (nl :: b) ((pipe :: u ++ [pipe]) ++ nl :: w) =
    Some (Cursor (rev (pipe :: u ++ [pipe]) ++ nl :: b) (nl :: w)).
Proof.
  intros Hu. cbn [table_at app]. rewrite <- app_assoc. cbn [app].
  change (Ascii.eqb nl nl && Ascii.eqb pipe pipe) with true. cbn iota.
  rewrite first_closes_app by exact Hu.
  f_equal. f_equal. cbn [rev]. rewrite rev_app_distr. cbn [rev app].
  rewrite <- !app_assoc. reflexivity.
Qed.

Lemma table_pieces_none (after : str) :
  forall before, table_ahead (prev_nl before) after = false ->
    pieces table_re 0 before after = map Lit after.
Proof.
  induction after as [|c a IH]; intros before H.
  { apply pieces_end. rewrite match_at_table. apply table_at_nil. }
  cbn [table_ahead] in H. apply orb_false_iff in H as [H1 H2].
  rewrite pieces_miss by (rewrite match_at_table; apply table_at_none, H1).
  cbn [map]. f_equal. apply IH. exact H2.
Qed.

Lemma table_pieces_hits (after : str) :
  forall skip before m,
    In (Hit m) (pieces table_re skip before after) ->
    exists x u w, after = x ++ m ++ nl :: w /\
                  m = pipe :: u ++ [pipe] /\
                  prev_nl (rev x ++ before) = true /\
                  has_close (u ++ [pipe]) = false.
Proof.
  induction after as [|c a IH]; intros skip before m Hin.
  { destruct skip; cbn [pieces] in Hin; [|contradiction].
    rewrite match_at_table, table_at_nil in Hin. contradiction. }
  assert (Tail : forall k, In (Hit m) (pieces table_re k (c :: before) a) ->
            exists x u w, c :: a = x ++ m ++ nl :: w /\
                          m = pipe :: u ++ [pipe] /\
                          prev_nl (rev x ++ before) = true /\
                          has_close (u ++ [pipe]) = false).
  { intros k Hk. destruct (IH _ _ _ Hk) as (x & u & w & -> & Hm & Hp & Hu).
    exists (c :: x), u, w. repeat split; try assumption.
    cbn [rev]. rewrite <- app_assoc. exact Hp. }
  destruct skip as [|skip]; cbn [pieces] in Hin; [|eapply Tail, Hin].
  rewrite match_at_table in Hin.
  destruct (table_at before (c :: a)) as [q|] eqn:E.
  - destruct (table_at_some _ _ _ E) as (b & u & w & -> & Ea & -> & Hu).
    cbn [app] in Ea. injection Ea as -> ->. cbn [ahead] in Hin.
    replace (length (pipe :: (u ++ [pipe]) ++ nl :: w) - length (nl :: w))
      with (S (length (u ++ [pipe]))) in Hin
      by (cbn [length]; rewrite !length_app; cbn [length]; lia).
    cbn [take] in Hin. rewrite take_app_length in Hin.
    destruct Hin as [Hm | Hin].
    + injection Hm as <-. exists [], u, w. repeat split; assumption.
    + eapply Tail, Hin.
  - destruct Hin as [Hm | Hin]; [discriminate | eapply Tail, Hin].
Qed.

Lemma table_pieces_some (after : str) :
  forall before, table_ahead (prev_nl before) after = true ->
    exists m, In (Hit m) (pieces table_re 0 before after).
Proof.
  induction after as [|c a IH]; intros before H; [discriminate|].
  cbn [table_ahead] in H. cbn [pieces]. rewrite match_at_table.
  destruct (table_at before (c :: a)) as [q|] eqn:E.
  - eexists. left. reflexivity.
  - apply table_at_none in E. rewrite E in H. cbn [orb] in H.
    destruct (IH (c :: before) H) as [m Hm]. exists m. right. exact Hm.
Qed.

End TableFacts.

(** * [str.replace] replaces every occurrence *)

Section ReplaceFacts.
Lemma starts_with_app (old s : str) : starts_with old (old ++ s) = true.
Proof.
  induction old as [|c o IH]; [reflexivity|].
  cbn [app starts_with]. rewrite Ascii.eqb_refl. exact IH.
Qed.

Lemma starts_with_true (old s : str) :
  starts_with old s = true -> exists y, s = old ++ y.
Proof.
  revert s. induction old as [|c o IH]; intros s H.
  { exists s. reflexivity. }
  destruct s as [|d s]; [discriminate|]. cbn [starts_with] in H.
  apply andb_true_iff in H as [Hc Ho]. apply Ascii.eqb_eq in Hc. subst d.
  destruct (IH s Ho) as [y ->]. exists y. reflexivity.
Qed.

Lemma replace_from_skip (old new x : str) :
  forall b, replace_from old new (length x) (x ++ b) = replace_from old new 0 b.
Proof. induction x as [|c x IH]; intros b; [reflexivity | apply IH]. Qed.

Lemma replace_from_occ (old new b : str) :
  old <> [] ->
  replace_from old new 0 (old ++ b) = new ++ replace_from old new 0 b.
Proof.
  intros Hold. pose proof (starts_with_app old b) as E.
  destruct old as [|c o]; [congruence|].
  cbn [app] in *. cbn [replace_from]. rewrite E.
  replace (length (c :: o) - 1) with (length o) by (cbn [length]; lia).
  rewrite replace_from_skip. reflexivity.
Qed.

Lemma replace_from_miss (old new : str) (c : ascii) (s : str) :
  starts_with old (c :: s) = false ->
  replace_from old new 0 (c :: s) = c :: replace_from old new 0 s.
Proof. intros E. cbn [replace_from]. rewrite E. reflexivity. Qed.

Lemma replace_from_all (old new : str) (n : nat) :
  old <> [] ->
  forall s, length s <= n ->
  forall a, (forall x y, a ++ s = x ++ old ++ y -> length a <= length x) ->
    all_replaced old new (a ++ s) (a ++ replace_from old new 0 s).
Proof.
  intros Hold. induction n as [|n IH]; intros s Hn a First.
  - destruct s; [|cbn [length] in Hn; lia]. cbn [replace_from].
    apply replaced_rest.
    intros x y E. specialize (First x y E).
    apply (f_equal length) in E. rewrite !length_app in E.
    destruct old; [congruence|]. cbn [length] in E. lia.
  - destruct s as [|c s].
    { apply (IH []); [cbn [length]; lia | exact First]. }
    destruct (starts_with old (c :: s)) eqn:E.
    + apply starts_with_true in E as [b E]. rewrite E in *.
      rewrite replace_from_occ by exact Hold.
      apply replaced_next; [exact First|].
      apply (IH b) with (a := []); [|intros; cbn [length]; lia].
      rewrite length_app in Hn. destruct old; [congruence|].
      cbn [length] in Hn. lia.
    + rewrite replace_from_miss by exact E.
      replace (a ++ c :: s) with ((a ++ [c]) ++ s)
        by (rewrite <- app_assoc; reflexivity).
      replace (a ++ c :: replace_from old new 0 s)
        with ((a ++ [c]) ++ replace_from old new 0 s)
        by (rewrite <- app_assoc; reflexivity).
      apply IH; [cbn [length] in Hn; lia|].
      intros x y Exy. rewrite <- app_assoc in Exy. cbn [app] in Exy.
      pose proof (First x y Exy) as Hle.
      rewrite length_app. cbn [length].
      destruct (Nat.eq_dec (length a) (length x)) as [El|]; [|lia].
      apply app_inj_1 in Exy as [_ Exy]; [|exact El].
      rewrite Exy, starts_with_app in E. discriminate.
Qed.

Lemma replace_all_replaced (old new s : str) :
  old <> [] -> all_replaced old new s (replace old new s).
Proof.
  intros Hold. unfold replace. destruct old as [|c o] eqn:Eo; [congruence|].
  rewrite <- Eo in *.
  apply (replace_from_all old new (length s) Hold s (le_n _) []).
  intros; cbn [length]; lia.
Qed.

End ReplaceFacts.

(** * Inserting newlines *)

Section InsertedFacts.

Lemma inserted_refl (s : str) : inserted s s.
Proof. induction s; constructor; assumption. Qed.

Lemma inserted_app (a a' b b' : str) :
  inserted a a' -> inserted b b' -> inserted (a ++ b) (a' ++ b').
Proof. intros Ha Hb. induction Ha; cbn [app]; try constructor; assumption. Qed.

Lemma inserted_length (s s' : str) : inserted s s' -> length s <= length s'.
Proof. induction 1; cbn [length]; lia. Qed.

Lemma inserted_trans (s1 s2 s3 : str) :
  inserted s1 s2 -> inserted s2 s3 -> inserted s1 s3.
Proof.
  intros H12 H23. revert s1 H12.
  induction H23 as [|c s2 s3 H IH|s2 s3 H IH]; intros s1 H12.
  - exact H12.
  - inversion H12; subst; constructor; apply IH; assumption.
  - constructor. apply IH. exact H12.
Qed.

Lemma inserted_head_nl (s s' : str) :
  inserted (nl :: s) s' -> exists t, s' = nl :: t.
Proof. inversion 1; subst; eexists; reflexivity. Qed.

Lemma has_close_cons (c : ascii) (s : str) :
  has_close s = true -> has_close (c :: s) = true.
Proof. intros H. cbn [has_close]. rewrite H. apply orb_true_r. Qed.

Lemma has_close_inserted (s s' : str) :
  inserted s s' -> has_close s = true -> has_close s' = true.
Proof.
  induction 1 as [|c s s' H IH|s s' H IH]; intros Hc.
  - discriminate.
  - cbn [has_close] in Hc. apply orb_true_iff in Hc as [Hc|Hc].
    + destruct s as [|d s]; [discriminate|].
      apply andb_true_iff in Hc as [Ec Ed]. apply Ascii.eqb_eq in Ed. subst d.
      destruct (inserted_head_nl _ _ H) as [t ->].
      cbn [has_close]. rewrite Ec. reflexivity.
    + apply has_close_cons, IH, Hc.
  - apply has_close_cons, IH, Hc.
Qed.

Lemma table_ahead_mono (b : bool) (s : str) :
  table_ahead b s = true -> table_ahead true s = true.
Proof.
  destruct s as [|c s]; [discriminate|]. cbn [table_ahead].
  destruct b; [tauto|]. cbn [andb orb]. intros ->. apply orb_true_r.
Qed.

Lemma table_ahead_inserted (s s' : str) :
  inserted s s' ->
  forall b, table_ahead b s = true -> table_ahead b s' = true.
Proof.
  induction 1 as [|c s s' H IH|s s' H IH]; intros b Hb.
  - discriminate.
  - cbn [table_ahead] in *. apply orb_true_iff in Hb as [Hb|Hb].
    + apply andb_true_iff in Hb as [Hb Hc].
      rewrite Hb, (has_close_inserted _ _ H Hc). reflexivity.
    + rewrite (IH _ Hb). apply orb_true_r.
  - cbn [table_ahead]. change (Ascii.eqb nl nl) with true.
    rewrite (table_ahead_mono b s' (IH b Hb)). apply orb_true_r.
Qed.

Lemma replaced_inserted (t s s' : str) :
  all_replaced t ([nl] ++ t ++ [nl]) s s' -> inserted s s'.
Proof.
  induction 1 as [s _|a b b' _ _ IH]; [apply inserted_refl|].
  apply inserted_app; [apply inserted_refl|].
  cbn [app]. rewrite <- app_assoc. apply inserted_new.
  apply inserted_app; [apply inserted_refl|].
  cbn [app]. apply inserted_new, IH.
Qed.

Lemma replaced_longer (t s s' : str) :
  all_replaced t ([nl] ++ t ++ [nl]) s s' ->
  (exists x y, s = x ++ t ++ y) -> length s < length s'.
Proof.
  intros H [x [y E]]. destruct H as [s Hno|a b b' _ H].
  - destruct (Hno x y E).
  - apply replaced_inserted, inserted_length in H.
    repeat first [rewrite length_app | progress cbn [length app]]. lia.
Qed.

Lemma replace_empty_inserted (s : str) :
  inserted s ([nl; nl] ++ flat_map (fun c => c :: [nl; nl]) s).
Proof.
  do 2 apply inserted_new. induction s as [|c s IH]; [constructor|].
  cbn [flat_map app]. do 3 constructor. exact IH.
Qed.

End InsertedFacts.

(** * The table spacer *)

Section SpacerFacts.

Lemma findall_hit (r : regex) (s m : str) :
  In m (findall r s) <-> In (Hit m) (pieces r 0 [] s).
Proof.
  unfold findall. rewrite in_flat_map. split.
  - intros [[c|m'] [Hin Hm]]; cbn in Hm; [contradiction|].
    destruct Hm as [->|[]]. exact Hin.
  - intros H. exists (Hit m). split; [exact H | left; reflexivity].
Qed.

Lemma findall_lits (r : regex) (s : str) :
  flat_map (fun x => match x with Hit m => [m] | Lit _ => [] end)
           (map Lit s) = [].
Proof. induction s as [|c s IH]; [reflexivity | exact IH]. Qed.

(** The scan finds a table exactly where [has_table] says so. *)
Lemma findall_table_nil (s : str) :
  findall table_re s = [] <-> has_table s = false.
Proof.
  split.
  - intros E. destruct (has_table s) eqn:H; [|reflexivity].
    destruct (table_pieces_some s [] H) as [m Hm].
    apply findall_hit in Hm. rewrite E in Hm. destruct Hm.
  - intros H. unfold findall.
    rewrite (table_pieces_none s [] H). apply findall_lits, table_re.
Qed.

(** Every match stands in the content between two newlines, begins with
    a pipe and ends with a pipe. *)
Lemma findall_table_occurs (s t : str) :
  In t (findall table_re s) ->
  exists x u w, s = x ++ t ++ nl :: w /\ t = pipe :: u ++ [pipe] /\
                prev_nl (rev x) = true.
Proof.
  intros H. apply findall_hit, table_pieces_hits in H.
  destruct H as (x & u & w & E & Ht & Hp & _).
  rewrite app_nil_r in Hp. exists x, u, w. auto.
Qed.

Lemma pad_table_replaced (doc t : str) :
  t <> [] -> all_replaced t ([nl] ++ t ++ [nl]) doc (pad_table doc t).
Proof. intros Ht. apply replace_all_replaced, Ht. Qed.

Lemma pad_table_inserted (doc t : str) : inserted doc (pad_table doc t).
Proof.
  destruct t as [|c t].
  - apply replace_empty_inserted.
  - apply replaced_inserted with (t := c :: t), pad_table_replaced.
    discriminate.
Qed.

Lemma fold_pad_inserted (ts : list str) :
  forall doc, inserted doc (fold_left pad_table ts doc).
Proof.
  induction ts as [|t ts IH]; intros doc; [apply inserted_refl|].
  cbn [fold_left]. eapply inserted_trans; [apply pad_table_inserted | apply IH].
Qed.

Lemma space_tables_inserted (content : str) :
  inserted content (space_tables content).
Proof. apply fold_pad_inserted. Qed.

Lemma space_tables_fixed (content : str) :
  findall table_re content = [] -> space_tables content = content.
Proof. unfold space_tables. intros ->. reflexivity. Qed.

Lemma space_tables_grows (content : str) :
  findall table_re content <> [] ->
  length content < length (space_tables content).
Proof.
  unfold space_tables.
  destruct (findall table_re content) as [|t ts] eqn:E; [congruence|].
  intros _. cbn [fold_left].
  assert (Hin : In t (findall table_re content)) by (rewrite E; left; reflexivity).
  apply findall_table_occurs in Hin as (x & u & w & Hc & Ht & _).
  eapply Nat.lt_le_trans; [|apply inserted_length, fold_pad_inserted].
  apply replaced_longer with (t := t).
  - apply pad_table_replaced. subst t. discriminate.
  - exists x, (nl :: w). exact Hc.
Qed.

Lemma space_tables_keeps_table (content : str) :
  has_table content = true -> has_table (space_tables content) = true.
Proof. apply table_ahead_inserted, space_tables_inserted. Qed.

Lemma fix_table_formatting_spec (file_path : string) (fs : gmap string str)
      (content : str) :
  read_text file_path fs = Some content ->
  fix_table_formatting file_path fs =
    Some (<[file_path := space_tables content]> fs).
Proof. unfold fix_table_formatting. intros ->. reflexivity. Qed.

End SpacerFacts.

(** * A single row that stands alone *)

Section SingleRow.

Lemma occurrences_app_ge (old x y : str) :
  occurrences old y <= occurrences old (x ++ y).
Proof. induction x as [|c x IH]; cbn [app occurrences]; lia. Qed.

Lemma occurrences_here (old y : str) :
  old <> [] -> 1 <= occurrences old (old ++ y).
Proof.
  intros Hold. pose proof (starts_with_app old y) as E.
  destruct old as [|c o]; [congruence|].
  cbn [app occurrences] in *. rewrite E. lia.
Qed.

Lemma replace_from_none (old new s : str) :
  occurrences old s = 0 -> replace_from old new 0 s = s.
Proof.
  induction s as [|c s IH]; [reflexivity|]. cbn [occurrences]. intros H.
  destruct (starts_with old (c :: s)) eqn:E; [lia|].
  rewrite replace_from_miss by exact E. rewrite IH by lia. reflexivity.
Qed.

(** Where [old] occurs once, [replace] changes that one place. *)
Lemma replace_single (old new x y : str) :
  old <> [] ->
  occurrences old (x ++ old ++ y) = 1 ->
  replace old new (x ++ old ++ y) = x ++ new ++ y.
Proof.
  intros Hold. unfold replace.
  destruct old as [|c0 o0] eqn:Eo; [congruence|]. rewrite <- Eo in *.
  clear Eo c0 o0.
  induction x as [|c x IH]; intros H.
  - cbn [app] in *. rewrite replace_from_occ by exact Hold. f_equal.
    apply replace_from_none.
    pose proof (starts_with_app old y) as E.
    destruct old as [|d o]; [congruence|].
    cbn [app occurrences] in H, E. rewrite E in H.
    pose proof (occurrences_app_ge (d :: o) o y). lia.
  - cbn [app occurrences] in H.
    pose proof (occurrences_here old y Hold) as H1.
    pose proof (occurrences_app_ge old x (old ++ y)) as H2.
    destruct (starts_with old (c :: x ++ old ++ y)) eqn:E; [lia|].
    cbn [app]. rewrite replace_from_miss by exact E. f_equal. apply IH. lia.
Qed.

Lemma count_starts_occurrences (s : str) :
  forall b, count_starts b s =
            (if b && begins_with_pipe s then 1 else 0)
            + occurrences [nl; pipe] s.
Proof.
  induction s as [|c s IH]; intros b.
  { destruct b; reflexivity. }
  cbn [count_starts occurrences begins_with_pipe]. rewrite IH.
  cbn [starts_with]. unfold begins_with_pipe.
  destruct s as [|d s]; cbn [andb].
  - rewrite !andb_false_r. cbn. lia.
  - rewrite andb_true_r. replace (Ascii.eqb nl c) with (Ascii.eqb c nl)
      by apply Ascii.eqb_sym.
    replace (Ascii.eqb pipe d) with (Ascii.eqb d pipe) by apply Ascii.eqb_sym.
    destruct (Ascii.eqb c nl && Ascii.eqb d pipe); lia.
Qed.

Lemma count_starts_app (x y : str) :
  forall b, count_starts b (x ++ y) =
            count_starts b x + count_starts (prev_nl (rev x ++ [if b then nl else pipe])) y.
Proof.
  induction x as [|c x IH]; intros b.
  { cbn [app rev count_starts prev_nl]. destruct b; reflexivity. }
  cbn [app count_starts rev]. rewrite IH, Nat.add_assoc. f_equal. f_equal.
  rewrite <- !app_assoc. cbn [app].
  destruct (rev x) as [|e r]; cbn [app prev_nl]; [|reflexivity].
  destruct (Ascii.eqb c nl); reflexivity.
Qed.

Lemma pieces_free (x : str) :
  forall before y,
    count_starts (prev_nl before) x = 0 ->
    pieces table_re 0 before (x ++ y) =
      map Lit x ++ pieces table_re 0 (rev x ++ before) y.
Proof.
  induction x as [|c x IH]; intros before y H; [reflexivity|].
  cbn [count_starts] in H. cbn [app].
  rewrite pieces_miss.
  - cbn [map app rev]. rewrite IH by (cbn [prev_nl]; lia).
    rewrite <- app_assoc. reflexivity.
  - rewrite match_at_table. apply table_at_none.
    destruct (prev_nl before && Ascii.eqb c pipe); [lia | reflexivity].
Qed.

Lemma has_close_line (mid : str) :
  forallb (fun c => negb (Ascii.eqb c nl)) mid = true ->
  has_close (mid ++ [pipe]) = false.
Proof.
  induction mid as [|c mid IH]; [reflexivity|]. cbn [forallb]. intros H.
  apply andb_true_iff in H as [Hc H]. cbn [app has_close].
  rewrite (IH H), orb_false_r.
  destruct mid as [|d mid]; cbn [app].
  - apply andb_false_r.
  - cbn [forallb] in H. apply andb_true_iff in H as [Hd _].
    apply negb_true_iff in Hd. rewrite Hd. apply andb_false_r.
Qed.

Lemma padded_from_app (block q : str) (p : str) :
  forall b,
    match last p with Some c => negb (Ascii.eqb c nl) | None => b end = true ->
    begins_with_nl q = false ->
    padded_from b block (p ++ [nl; nl] ++ block ++ [nl; nl] ++ q) = true.
Proof.
  induction p as [|c p IH]; intros b Hb Hq.
  - cbn [last] in Hb. subst b. cbn [app padded_from andb].
    apply orb_true_iff. left. apply andb_true_iff. split.
    + replace (nl :: nl :: block ++ nl :: nl :: q)
        with (([nl; nl] ++ block ++ [nl; nl]) ++ q)
        by (cbn [app]; rewrite <- app_assoc; reflexivity).
      apply starts_with_app.
    + replace (drop (length block + 4) (nl :: nl :: block ++ nl :: nl :: q))
        with q; [rewrite Hq; reflexivity|].
      replace (length block + 4) with (length ([nl; nl] ++ block ++ [nl; nl]))
        by (cbn [app length]; rewrite length_app; cbn [length]; lia).
      replace (nl :: nl :: block ++ nl :: nl :: q)
        with (([nl; nl] ++ block ++ [nl; nl]) ++ q)
        by (cbn [app]; rewrite <- app_assoc; reflexivity).
      rewrite drop_app_length. reflexivity.
  - cbn [app padded_from]. apply orb_true_iff. right. apply IH; [|exact Hq].
    destruct p as [|d p]; [exact Hb|]. rewrite last_cons_cons in Hb.
    destruct (last (d :: p)) eqn:El; [exact Hb|].
    apply last_None in El. discriminate.
Qed.

Lemma prev_nl_row (mid rest : str) :
  prev_nl (rev (pipe :: mid ++ [pipe]) ++ rest) = false.
Proof.
  cbn [rev]. rewrite rev_app_distr. reflexivity.
Qed.

(** The scan of a content whose only pipe after a newline begins a
    one-line row finds that row and nothing else. *)
Lemma single_row_findall (pre mid post : str) :
  forallb (fun c => negb (Ascii.eqb c nl)) mid = true ->
  occurrences [nl; pipe]
    (pre ++ [nl] ++ (pipe :: mid ++ [pipe]) ++ [nl] ++ post) = 1 ->
  findall table_re (pre ++ [nl] ++ (pipe :: mid ++ [pipe]) ++ [nl] ++ post)
  = [pipe :: mid ++ [pipe]].
Proof.
  intros Hmid Hocc. set (row := pipe :: mid ++ [pipe]) in *.
  replace (pre ++ [nl] ++ row ++ [nl] ++ post)
    with ((pre ++ [nl]) ++ row ++ (nl :: post)) in *
    by (rewrite <- app_assoc; reflexivity).
  pose proof (count_starts_occurrences
                ((pre ++ [nl]) ++ row ++ nl :: post) false) as C.
  cbn [andb] in C. rewrite Hocc in C.
  rewrite (count_starts_app (pre ++ [nl])) in C.
  rewrite rev_app_distr in C. cbn [rev app prev_nl] in C.
  change (Ascii.eqb nl nl) with true in C.
  unfold row in C at 1. cbn [app count_starts andb] in C.
  change (Ascii.eqb pipe pipe) with true in C.
  change (Ascii.eqb pipe nl) with false in C. cbn iota in C.
  rewrite (count_starts_app (mid ++ [pipe]) (nl :: post)) in C.
  assert (P : prev_nl (rev (mid ++ [pipe]) ++ [pipe]) = false)
    by (rewrite rev_app_distr; reflexivity).
  rewrite P in C.
  unfold findall.
  rewrite pieces_free by (cbn [prev_nl]; lia).
  rewrite app_nil_r, rev_app_distr. cbn [rev app].
  rewrite pieces_hit;
    [|discriminate
     |rewrite match_at_table; apply table_at_row, has_close_line, Hmid].
  replace (nl :: post) with ((nl :: post) ++ []) at 1 by apply app_nil_r.
  rewrite pieces_free by (unfold row; rewrite prev_nl_row; lia).
  rewrite pieces_end by (rewrite match_at_table; apply table_at_nil).
  rewrite flat_map_app, findall_lits by exact table_re.
  cbn [flat_map app]. rewrite app_nil_r, findall_lits by exact table_re.
  reflexivity.
Qed.

End SingleRow.

(** * Properties of the table spacer *)

Lemma fold_pad_pads (ts : list str) :
  Forall (fun t => t <> []) ts ->
  forall doc, pads ts doc (fold_left pad_table ts doc).
Proof.
  induction 1 as [|t ts Ht _ IH]; intros doc; [constructor|].
  cbn [fold_left]. econstructor; [apply pad_table_replaced, Ht | apply IH].
Qed.

Lemma findall_table_nonempty (content : str) :
  Forall (fun t => t <> []) (findall table_re content).
Proof.
  apply Forall_forall. intros t Hin. apply list_elem_of_In in Hin.
  apply findall_table_occurs in Hin as (_ & u & _ & _ & -> & _). discriminate.
Qed.

(** C1.  On scenario B the scan returns the two rows as two matches: the
    lazy group of the pattern never takes a round, because the lookahead
    for a newline already succeeds after the first row.  Each row is padded
    on its own, so the output has a blank line between the rows and is not
    the output the scenario names. *)
Theorem scenario_B_rows_padded_apart :
  findall table_re scenario_B = [py "|a|b|"; py "|c|d|"] /\
  space_tables scenario_B = py "text\n\n|a|b|\n\n\n|c|d|\n\nmore text\n" /\
  space_tables scenario_B <> py "text\n\n|a|b|\n|c|d|\n\nmore text\n" /\
  fix_table_formatting "doc.md" {["doc.md" := scenario_B]} =
    Some {["doc.md" := py "text\n\n|a|b|\n\n\n|c|d|\n\nmore text\n"]}.
Proof.
  split; [reflexivity|]. split; [reflexivity|]. split; [discriminate|].
  rewrite (fix_table_formatting_spec _ _ scenario_B)
    by apply lookup_singleton_eq.
  rewrite insert_singleton_eq. reflexivity.
Qed.

(** C3, counterexample.  A second run pads the one-row table again. *)
Lemma spacer_second_run_pads_again :
  space_tables (py "x\n|a|\ny\n") = py "x\n\n|a|\n\ny\n" /\
  space_tables (space_tables (py "x\n|a|\ny\n")) = py "x\n\n\n|a|\n\n\ny\n" /\
  space_tables (space_tables (py "x\n|a|\ny\n")) <>
    space_tables (py "x\n|a|\ny\n").
Proof. split; [reflexivity|]. split; [reflexivity | discriminate]. Qed.

(** C3, amended.  A second run of the table spacer changes nothing exactly
    when the scan finds no table in the content, and then the first run
    changes nothing either; whenever the scan finds a table, the second run
    inserts newlines again. *)
Theorem spacer_idempotent_iff_no_table (content : str) :
  space_tables (space_tables content) = space_tables content <->
  findall table_re content = [].
Proof.
  split.
  - intros E. destruct (has_table content) eqn:H.
    + apply space_tables_keeps_table in H.
      assert (N : findall table_re (space_tables content) <> []).
      { intros N. apply findall_table_nil in N. congruence. }
      apply space_tables_grows in N. rewrite E in N. lia.
    + apply findall_table_nil, H.
  - intros E. rewrite (space_tables_fixed content E). apply space_tables_fixed, E.
Qed.

(** C4.  The output is reached from the content by going through the
    matches of the one scan of the original content in order and, for each
    match, replacing every occurrence of its text in the document as it
    stands by then with the padded text.  A copy of a row that the scan did
    not match is padded with the matched one; two copies that the scan both
    matched are each padded twice. *)
Theorem every_occurrence_padded :
  (forall content,
      pads (findall table_re content) content (space_tables content)) /\
  (findall table_re (py "x\n|a|\ny |a| z\n") = [py "|a|"] /\
   space_tables (py "x\n|a|\ny |a| z\n") = py "x\n\n|a|\n\ny \n|a|\n z\n") /\
  (findall table_re (py "x\n|a|\ny\n|a|\nz\n") = [py "|a|"; py "|a|"] /\
   space_tables (py "x\n|a|\ny\n|a|\nz\n") =
     py "x\n\n\n|a|\n\n\ny\n\n\n|a|\n\n\nz\n").
Proof.
  split; [|repeat split; reflexivity].
  intros content. apply fold_pad_pads, findall_table_nonempty.
Qed.

(** C10, counterexample.  No line of the content both begins and ends with
    a pipe, yet the scan matches from the pipe that begins one line to the
    pipe that ends the next, and the content is changed. *)
Lemma spacer_matches_across_lines :
  existsb pipe_line (split_nl (py "x\n|a\nb|\ny\n")) = false /\
  findall table_re (py "x\n|a\nb|\ny\n") = [py "|a\nb|"] /\
  space_tables (py "x\n|a\nb|\ny\n") = py "x\n\n|a\nb|\n\ny\n" /\
  space_tables (py "x\n|a\nb|\ny\n") <> py "x\n|a\nb|\ny\n".
Proof. repeat split; try reflexivity. discriminate. Qed.

(** C10, amended.  When the content has no pipe directly after a newline
    that is followed, anywhere later in the content, by a pipe directly
    before a newline, the scan finds no match and the file is written back
    unchanged. *)
Theorem no_table_unchanged (file_path : string) (fs : gmap string str)
        (content : str) :
  read_text file_path fs = Some content ->
  has_table content = false ->
  findall table_re content = [] /\
  space_tables content = content /\
  fix_table_formatting file_path fs = Some fs.
Proof.
  intros Hr Hn. apply findall_table_nil in Hn.
  split; [exact Hn|]. split; [apply space_tables_fixed, Hn|].
  rewrite (fix_table_formatting_spec _ _ content Hr).
  rewrite (space_tables_fixed content Hn). f_equal. apply insert_id, Hr.
Qed.

Lemma no_table_unchanged_witness :
  findall table_re (py "|a|\nx |b| y\n|c\n") = [] /\
  space_tables (py "|a|\nx |b| y\n|c\n") = py "|a|\nx |b| y\n|c\n" /\
  fix_table_formatting "doc.md" {["doc.md" := py "|a|\nx |b| y\n|c\n"]} =
    Some {["doc.md" := py "|a|\nx |b| y\n|c\n"]}.
Proof.
  apply (no_table_unchanged "doc.md" _ (py "|a|\nx |b| y\n|c\n")).
  - apply lookup_singleton_eq.
  - reflexivity.
Defined.

(** C2, counterexample.  A row on the first line of the content has no
    newline before it: the scan does not match it and the content is left
    as it is.  A row whose text stands twice in the content is matched
    twice and every copy is padded twice, so each copy gets two blank lines
    on either side.  A row that holds the text of another match is split
    when that match is padded.  A row below a line that ends with the text
    of another match gets a second blank line above it when that match is
    padded.  A row whose padding completes the text of a match that runs
    over several lines gets a second blank line below it.  Rows on adjacent
    lines are padded apart, with two blank lines between them. *)
Lemma table_padding_counterexample :
  (pipe_block (py "|a|") = true /\
   space_tables (py "|a|\nx\n") = py "|a|\nx\n" /\
   padded_once (py "|a|") (space_tables (py "|a|\nx\n")) = false) /\
  (space_tables (py "x\n|a|\ny\n|a|\nz\n") =
     py "x\n\n\n|a|\n\n\ny\n\n\n|a|\n\n\nz\n" /\
   padded_once (py "|a|") (space_tables (py "x\n|a|\ny\n|a|\nz\n")) = false) /\
  (findall table_re (py "x\n|b|\ny\n|a|b|\nz\n") = [py "|b|"; py "|a|b|"] /\
   space_tables (py "x\n|b|\ny\n|a|b|\nz\n") =
     py "x\n\n|b|\n\ny\n|a\n|b|\n\nz\n" /\
   padded_once (py "|a|b|") (space_tables (py "x\n|b|\ny\n|a|b|\nz\n"))
   = false) /\
  (findall table_re (py "x |b|\n|a|\ny\n|b|\nz\n") = [py "|a|"; py "|b|"] /\
   space_tables (py "x |b|\n|a|\ny\n|b|\nz\n") =
     py "x \n|b|\n\n\n|a|\n\ny\n\n|b|\n\nz\n" /\
   padded_once (py "|a|") (space_tables (py "x |b|\n|a|\ny\n|b|\nz\n"))
   = false) /\
  (findall table_re (py "p\nq |c x\n|a|\nr\n|c x\n\n|a|\ns\n")
   = [py "|a|"; py "|c x\n\n|a|"] /\
   space_tables (py "p\nq |c x\n|a|\nr\n|c x\n\n|a|\ns\n") =
     py "p\nq \n|c x\n\n|a|\n\n\nr\n|c x\n\n\n|a|\n\ns\n" /\
   padded_once (py "|a|")
     (space_tables (py "p\nq |c x\n|a|\nr\n|c x\n\n|a|\ns\n")) = false) /\
  (space_tables scenario_B = py "text\n\n|a|b|\n\n\n|c|d|\n\nmore text\n" /\
   padded_once (py "|a|b|") (space_tables scenario_B) = false /\
   padded_once (py "|c|d|") (space_tables scenario_B) = false).
Proof. repeat split; vm_compute; reflexivity. Qed.

(** The output for a one-line row that stands alone. *)
Lemma single_row_output (pre mid post : str) :
  forallb (fun c => negb (Ascii.eqb c nl)) mid = true ->
  occurrences [nl; pipe]
    (pre ++ [nl] ++ (pipe :: mid ++ [pipe]) ++ [nl] ++ post) = 1 ->
  occurrences (pipe :: mid ++ [pipe])
    (pre ++ [nl] ++ (pipe :: mid ++ [pipe]) ++ [nl] ++ post) = 1 ->
  space_tables (pre ++ [nl] ++ (pipe :: mid ++ [pipe]) ++ [nl] ++ post)
  = pre ++ [nl; nl] ++ (pipe :: mid ++ [pipe]) ++ [nl; nl] ++ post.
Proof.
  intros Hmid Hstart Hrow.
  unfold space_tables. rewrite single_row_findall by assumption.
  cbn [fold_left]. unfold pad_table.
  set (row := pipe :: mid ++ [pipe]) in *.
  replace (pre ++ [nl] ++ row ++ [nl] ++ post)
    with ((pre ++ [nl]) ++ row ++ (nl :: post)) in *
    by (rewrite <- app_assoc; reflexivity).
  rewrite replace_single by (try exact Hrow; discriminate).
  rewrite <- !app_assoc. reflexivity.
Qed.

(** * Properties of the blank-line normalizer *)

Section SqueezeFacts.

Lemma squeeze_idem (s : str) :
  forall n, squeeze n (squeeze n s) = squeeze n s.
Proof.
  induction s as [|c s IH]; intros n; [reflexivity|].
  cbn [squeeze]. destruct (Ascii.eqb c nl) eqn:Ec.
  - destruct (2 <=? n) eqn:En; [apply IH|].
    cbn [squeeze]. rewrite Ec, En, IH. reflexivity.
  - cbn [squeeze]. rewrite Ec, IH. reflexivity.
Qed.

Lemma runs_below_squeeze (s : str) :
  forall n, runs_below n (squeeze n s) = true.
Proof.
  induction s as [|c s IH]; intros n; [reflexivity|].
  cbn [squeeze]. destruct (Ascii.eqb c nl) eqn:Ec.
  - destruct (2 <=? n) eqn:En; [apply IH|].
    cbn [runs_below]. rewrite Ec, IH, andb_true_r.
    apply Nat.ltb_lt. apply Nat.leb_gt in En. lia.
  - cbn [runs_below]. rewrite Ec. apply IH.
Qed.

Lemma runs_below_triple (a b : str) :
  forall n, runs_below n (a ++ [nl; nl; nl] ++ b) = false.
Proof.
  induction a as [|c a IH]; intros n.
  - cbn [app runs_below]. change (Ascii.eqb nl nl) with true. cbn iota.
    destruct n as [|[|n]]; reflexivity.
  - cbn [app runs_below]. rewrite !IH. destruct (Ascii.eqb c nl);
      [apply andb_false_r | reflexivity].
Qed.

Lemma squeeze_app (a z : str) :
  forall n, ends_with_nl a = false ->
    squeeze n (a ++ z) =
      squeeze n a ++ squeeze (match a with [] => n | _ :: _ => 0 end) z.
Proof.
  induction a as [|c a IH]; intros n Ha; [reflexivity|].
  destruct a as [|d a].
  - unfold ends_with_nl in Ha. cbn [last] in Ha.
    cbn [app squeeze]. rewrite Ha. reflexivity.
  - assert (Ha' : ends_with_nl (d :: a) = false)
      by (unfold ends_with_nl in *; rewrite last_cons_cons in Ha; exact Ha).
    cbn iota in IH. remember (d :: a) as a' eqn:Ea'. clear Ea' Ha.
    cbn [app squeeze]. destruct (Ascii.eqb c nl); [destruct (2 <=? n)|];
      rewrite (IH _ Ha'); reflexivity.
Qed.

Lemma normalize_spec (file_path : string) (content : str) :
  file_path <> "CHANGELOG.md" ->
  normalize file_path content = squeeze 0 content.
Proof.
  intros H. unfold normalize. destruct (decide (file_path <> "CHANGELOG.md"));
    [apply sub_blank | contradiction].
Qed.

Lemma fix_multiple_blanks_spec (file_path : string) (fs : gmap string str)
      (content : str) :
  read_text file_path fs = Some content ->
  fix_multiple_blanks file_path fs =
    Some (<[file_path := normalize file_path content]> fs).
Proof. unfold fix_multiple_blanks. intros ->. reflexivity. Qed.

End SqueezeFacts.

(** C5.  For a file other than the exempted one, normalizing the
    normalized text changes nothing, and running the normalizer on the file
    a second time leaves the file system as the first run left it. *)
Theorem normalizer_idempotent (file_path : string) (fs : gmap string str)
        (content : str) :
  file_path <> "CHANGELOG.md" ->
  read_text file_path fs = Some content ->
  normalize file_path (normalize file_path content) = normalize file_path content /\
  exists fs1, fix_multiple_blanks file_path fs = Some fs1 /\
              fix_multiple_blanks file_path fs1 = Some fs1.
Proof.
  intros Hp Hr.
  assert (E : normalize file_path (normalize file_path content)
              = normalize file_path content).
  { rewrite !normalize_spec by exact Hp. apply squeeze_idem. }
  split; [exact E|].
  exists (<[file_path := normalize file_path content]> fs). split.
  - apply fix_multiple_blanks_spec, Hr.
  - rewrite (fix_multiple_blanks_spec _ _ (normalize file_path content))
      by apply lookup_insert_eq.
    rewrite E, insert_insert_eq. reflexivity.
Qed.

Lemma normalizer_idempotent_witness :
  normalize "README.md" (normalize "README.md" scenario_A)
  = normalize "README.md" scenario_A /\
  exists fs1,
    fix_multiple_blanks "README.md" {["README.md" := scenario_A]} = Some fs1 /\
    fix_multiple_blanks "README.md" fs1 = Some fs1.
Proof.
  apply (normalizer_idempotent "README.md" {["README.md" := scenario_A]}
           scenario_A).
  - discriminate.
  - reflexivity.
Defined.

(** C6.  For a file other than the exempted one, the normalizer returns,
    and the text it writes back has no three newlines in a row. *)
Theorem normalizer_no_triple_newline (file_path : string)
        (fs : gmap string str) (content : str) :
  file_path <> "CHANGELOG.md" ->
  read_text file_path fs = Some content ->
  fix_multiple_blanks file_path fs
  = Some (<[file_path := normalize file_path content]> fs) /\
  forall a b, normalize file_path content <> a ++ [nl; nl; nl] ++ b.
Proof.
  intros Hp Hr. split; [apply fix_multiple_blanks_spec, Hr|].
  intros a b E. pose proof (runs_below_squeeze content 0) as R.
  rewrite <- normalize_spec with (file_path := file_path) in R by exact Hp.
  rewrite E, runs_below_triple in R. discriminate.
Qed.

Lemma normalizer_no_triple_newline_witness :
  fix_multiple_blanks "README.md" {["README.md" := py "\n\n\na\n\n\n\n\nb\n\n\n"]}
  = Some (<["README.md" := normalize "README.md" (py "\n\n\na\n\n\n\n\nb\n\n\n")]>
            {["README.md" := py "\n\n\na\n\n\n\n\nb\n\n\n"]}) /\
  forall a b, normalize "README.md" (py "\n\n\na\n\n\n\n\nb\n\n\n")
              <> a ++ [nl; nl; nl] ++ b.
Proof.
  apply (normalizer_no_triple_newline "README.md").
  - discriminate.
  - reflexivity.
Defined.

(** The exemption on the texts: under the name CHANGELOG.md the text is
    written back as it was read, so the texts after the run are the texts
    before it.  In scenario C the four newlines stay. *)
Lemma changelog_left_unchanged :
  (forall (fs : gmap string str) (content : str),
      read_text "CHANGELOG.md" fs = Some content ->
      normalize "CHANGELOG.md" content = content /\
      fix_multiple_blanks "CHANGELOG.md" fs = Some fs) /\
  fix_multiple_blanks "CHANGELOG.md" {["CHANGELOG.md" := py "a\n\n\n\nb\n"]}
  = Some {["CHANGELOG.md" := py "a\n\n\n\nb\n"]}.
Proof.
  assert (G : forall (fs : gmap string str) (content : str),
             read_text "CHANGELOG.md" fs = Some content ->
             normalize "CHANGELOG.md" content = content /\
             fix_multiple_blanks "CHANGELOG.md" fs = Some fs).
  { intros fs content Hr. split; [reflexivity|].
    rewrite (fix_multiple_blanks_spec _ _ content Hr).
    change (normalize "CHANGELOG.md" content) with content.
    f_equal. apply insert_id, Hr. }
  split; [exact G|]. apply (G _ (py "a\n\n\n\nb\n")). reflexivity.
Qed.

(** C8.  On scenario A the normalizer writes back line1, one blank line,
    line2.  In general a run of two or more newlines, taken whole, becomes
    exactly two newlines, and the text on either side of it is normalized
    on its own. *)
Theorem normalizer_collapses_runs :
  (normalize "notes.md" (py "line1\n\n\n\nline2\n") = py "line1\n\nline2\n" /\
   fix_multiple_blanks "notes.md" {["notes.md" := py "line1\n\n\n\nline2\n"]}
   = Some {["notes.md" := py "line1\n\nline2\n"]}) /\
  (forall (file_path : string) (a b : str) (k : nat),
      file_path <> "CHANGELOG.md" ->
      ends_with_nl a = false ->
      begins_with_nl b = false ->
      normalize file_path (a ++ repeat nl (2 + k) ++ b)
      = normalize file_path a ++ [nl; nl] ++ normalize file_path b).
Proof.
  split.
  - split; [reflexivity|].
    rewrite (fix_multiple_blanks_spec _ _ (py "line1\n\n\n\nline2\n"))
      by reflexivity.
    rewrite insert_singleton_eq. reflexivity.
  - intros file_path a b k Hp Ha Hb. rewrite !normalize_spec by exact Hp.
    assert (Hb' : leading b = 0).
    { destruct b as [|c b]; [reflexivity|]. cbn [begins_with_nl leading] in *.
      rewrite Hb. reflexivity. }
    rewrite squeeze_app by exact Ha. f_equal.
    destruct a as [|c a]; apply (squeeze_run k b Hb').
Qed.

Lemma normalizer_collapses_runs_witness :
  normalize "notes.md" (py "line1" ++ repeat nl (2 + 2) ++ py "line2\n")
  = normalize "notes.md" (py "line1") ++ [nl; nl]
    ++ normalize "notes.md" (py "line2\n").
Proof.
  apply (proj2 normalizer_collapses_runs "notes.md" (py "line1") (py "line2\n") 2).
  - discriminate.
  - reflexivity.
  - reflexivity.
Defined.

(** * The walker *)

Section WalkFacts.

Lemma dir_induction (P : dir -> Prop) :
  (forall subdirs files,
      Forall (fun e => P (snd e)) subdirs -> P (Dir subdirs files)) ->
  forall d, P d.
Proof.
  intros H. fix IH 1. intros [subdirs files]. apply H.
  induction subdirs as [|e l IHl]; constructor; [apply IH | exact IHl].
Qed.

Lemma prefix_app (p r x : string) :
  String.prefix p r = true -> String.prefix p (r +:+ x) = true.
Proof.
  revert r. induction p as [|a p IH]; intros r H.
  { destruct (r +:+ x); reflexivity. }
  destruct r as [|b r]; [discriminate|].
  change (String.prefix (String a p) (String b r +:+ x))
    with (if ascii_dec a b then String.prefix p (r +:+ x) else false).
  change (String.prefix (String a p) (String b r))
    with (if ascii_dec a b then String.prefix p r else false) in H.
  destruct (ascii_dec a b); [apply IH, H | discriminate].
Qed.

Lemma path_join_rooted (root name : string) :
  rooted root = true -> name_ok name = true ->
  String.prefix "./" (path_join root name) = true.
Proof.
  unfold rooted, name_ok, path_join. intros Hr Hn.
  apply negb_true_iff in Hn. rewrite Hn.
  apply orb_true_iff in Hr as [Hr|Hr].
  - apply String.eqb_eq in Hr. subst root. cbn. destruct name; reflexivity.
  - destruct (String.eqb root "" || endswith root "/");
      apply prefix_app, Hr.
Qed.

Lemma walk_rooted (d : dir) :
  forall top, rooted top = true -> names_ok d = true ->
    Forall (fun t => rooted (fst (fst t)) = true /\
                     forallb name_ok (snd t) = true) (walk top d).
Proof.
  induction d as [subdirs files IH] using dir_induction.
  intros top Ht Hn. cbn [names_ok] in Hn. apply andb_true_iff in Hn as [Hf Hs].
  cbn [walk]. constructor; [split; assumption|].
  induction IH as [|e l He _ IHl]; [constructor|].
  cbn [forallb] in Hs. apply andb_true_iff in Hs as [He' Hs].
  apply andb_true_iff in He' as [Hname Hsub].
  cbn [flat_map]. apply Forall_app. split; [|apply IHl, Hs].
  apply He; [|exact Hsub]. unfold rooted.
  rewrite (path_join_rooted top (fst e) Ht Hname). apply orb_true_r.
Qed.

(** Every path the driver builds from ['.'] begins with ['./']. *)
Lemma md_paths_prefixed (d : dir) :
  names_ok d = true ->
  Forall (fun p => String.prefix "./" p = true) (md_paths "." d).
Proof.
  intros Hn. unfold md_paths.
  pose proof (walk_rooted d "." eq_refl Hn) as W.
  induction W as [|t l [Hr Hf] _ IH]; [constructor|].
  cbn [flat_map]. apply Forall_app. split; [|exact IH].
  clear IH. induction (snd t) as [|f fs IHf]; [constructor|].
  cbn [forallb] in Hf. apply andb_true_iff in Hf as [Hf1 Hf2].
  cbn [List.filter]. destruct (endswith f ".md"); [|apply IHf, Hf2].
  cbn [map]. constructor; [|apply IHf, Hf2].
  apply path_join_rooted; assumption.
Qed.

Variable fix_file : string -> gmap string str -> option (gmap string str).

Lemma visit_files (root : string) (l : list string) :
  forall w, fold_left (visit fix_file root) l w =
            fold_left (visit_path fix_file)
                      (map (path_join root)
                           (List.filter (fun file => endswith file ".md") l)) w.
Proof.
  induction l as [|f l IH]; intros w; [reflexivity|].
  cbn [fold_left List.filter]. rewrite IH.
  destruct (endswith f ".md") eqn:E; cbn [map fold_left]; f_equal;
    unfold visit, visit_path; destruct w; rewrite ?E; reflexivity.
Qed.

(** The two nested loops go through [md_paths] in order. *)
Lemma process_tree_paths (directory : string) (d : dir) (w : world) :
  process_tree fix_file directory d w =
    fold_left (visit_path fix_file) (md_paths directory d) (Some w).
Proof.
  unfold process_tree, md_paths. generalize (Some w) as o.
  induction (walk directory d) as [|t l IH]; intros o; [reflexivity|].
  cbn [fold_left flat_map]. rewrite fold_left_app, IH, visit_files.
  reflexivity.
Qed.

End WalkFacts.

(** * The normalizer driven by the walker *)

(** The loop over paths none of which is the exempted name: it returns, it
    prints one line per path, and every file on a path ends up normalized
    (a path met twice is normalized twice, which is the same). *)
Lemma run_paths (l : list string) :
  forall (fs : gmap string str) (out : list string),
    Forall (fun p => p <> "CHANGELOG.md") l ->
    Forall (fun p => is_Some (fs !! p)) l ->
    exists fs',
      fold_left (visit_path fix_multiple_blanks) l (Some (World fs out))
      = Some (World fs' (out ++ map (fun p => "Processing " +:+ p) l)) /\
      forall p, fs' !! p = if decide (p ∈ l) then squeeze 0 <$> fs !! p
                           else fs !! p.
Proof.
  induction l as [|q l IH]; intros fs out Hne Hsome.
  { exists fs. rewrite app_nil_r. split; [reflexivity|]. intros p.
    destruct (decide (p ∈ [])) as [H|_]; [inversion H | reflexivity]. }
  apply Forall_cons in Hne as [Hq Hne].
  apply Forall_cons in Hsome as [[c Hc] Hsome].
  cbn [fold_left visit_path contents stdout].
  rewrite (fix_multiple_blanks_spec q fs c Hc), (normalize_spec q c Hq).
  destruct (IH (<[q := squeeze 0 c]> fs) (out ++ ["Processing " +:+ q]) Hne)
    as (fs' & Hrun & Hfs').
  { eapply Forall_impl; [exact Hsome|]. intros p Hp. cbn beta in *.
    destruct (decide (q = p)) as [->|Hqp].
    - rewrite lookup_insert_eq. eexists. reflexivity.
    - rewrite lookup_insert_ne by exact Hqp. exact Hp. }
  exists fs'. split.
  { rewrite Hrun, <- app_assoc. reflexivity. }
  intros p. rewrite Hfs'. destruct (decide (p = q)) as [->|Hpq].
  - rewrite lookup_insert_eq, Hc. cbn [fmap option_fmap option_map].
    rewrite squeeze_idem.
    destruct (decide (q ∈ l)), (decide (q ∈ q :: l)) as [|N];
      try reflexivity; destruct N; left.
  - rewrite lookup_insert_ne by congruence.
    destruct (decide (p ∈ l)) as [H|H], (decide (p ∈ q :: l)) as [H'|H'];
      try reflexivity.
    + destruct H'. right. exact H.
    + apply elem_of_cons in H' as [?|?]; contradiction.
Qed.

(** Driven from ['.'], every path the walker builds begins with ['./'], so
    none of them equals the bare name CHANGELOG.md and the guard holds for
    all of them: the run returns, prints one line per walked path and
    leaves every walked file rewritten by the substitution. *)
Lemma walker_never_exempts (d : dir) (fs : gmap string str)
        (out : list string) :
  names_ok d = true ->
  Forall (fun p => is_Some (read_text p fs)) (md_paths "." d) ->
  Forall (fun p => String.prefix "./" p = true /\
                   p <> "CHANGELOG.md" /\
                   forall content,
                     normalize p content = sub blank_re [nl; nl] content)
         (md_paths "." d) /\
  exists fs',
    FixMultipleBlanks.main d (World fs out)
    = Some (World fs' (out ++ map (fun p => "Processing " +:+ p)
                                  (md_paths "." d))) /\
    forall p content,
      In p (md_paths "." d) -> read_text p fs = Some content ->
      read_text p fs' = Some (sub blank_re [nl; nl] content).
Proof.
  intros Hn Hsome.
  assert (Hne : Forall (fun p => p <> "CHANGELOG.md") (md_paths "." d)).
  { eapply Forall_impl; [apply md_paths_prefixed, Hn|].
    intros p Hp ->. discriminate. }
  split.
  - pose proof (md_paths_prefixed d Hn) as Hpre.
    apply Forall_forall. intros p Hin.
    rewrite Forall_forall in Hpre, Hne.
    split; [apply Hpre, Hin|]. split; [apply Hne, Hin|].
    intros content. unfold normalize.
    destruct (decide (p <> "CHANGELOG.md")) as [|N]; [reflexivity|].
    destruct N. apply Hne, Hin.
  - unfold FixMultipleBlanks.main, FixMultipleBlanks.process_directory.
    rewrite process_tree_paths.
    destruct (run_paths (md_paths "." d) fs out Hne Hsome) as (fs' & Hrun & Hfs').
    exists fs'. split; [exact Hrun|].
    intros p content Hin Hr. unfold read_text in *. rewrite Hfs', Hr.
    apply list_elem_of_In in Hin.
    destruct (decide (p ∈ md_paths "." d)); [|contradiction].
    cbn [fmap option_fmap option_map]. rewrite sub_blank. reflexivity.
Qed.

(** The sample run: the CHANGELOG.md at the walk root is opened as
    ./CHANGELOG.md and collapsed, the file that does not end in .md is left
    alone. *)
Example sample_run :
  md_paths "." sample_tree
  = ["./CHANGELOG.md"; "./readme.md"; "./docs/CHANGELOG.md"] /\
  FixMultipleBlanks.main sample_tree (World sample_files [])
  = Some (World
            (<["./CHANGELOG.md" := py "a\n\nb\n"]>
               (<["./readme.md" := py "line1\n\nline2\n"]>
                  (<["./docs/CHANGELOG.md" := py "\n\n"]>
                     (<["./notes.txt" := py "x\n\n\n"]> ∅))))
            ["Processing ./CHANGELOG.md"; "Processing ./readme.md";
             "Processing ./docs/CHANGELOG.md"]).
Proof. split; [reflexivity|]. vm_compute. reflexivity. Qed.

(** * The driver: which files are read, which are written *)

Section RewriteFacts.

Lemma visit_path_none
      (fix_file : string -> gmap string str -> option (gmap string str))
      (l : list string) :
  fold_left (visit_path fix_file) l None = None.
Proof. induction l as [|q l IH]; [reflexivity | exact IH]. Qed.

Lemma rewrites_normalize : rewrites normalize fix_multiple_blanks.
Proof. intros p fs. reflexivity. Qed.

Lemma rewrites_space_tables :
  rewrites (fun _ => space_tables) fix_table_formatting.
Proof. intros p fs. reflexivity. Qed.


(** The loop fails exactly when one of the paths cannot be read. *)
Lemma rewrite_paths_none (f : string -> str -> str)
      (fix_file : string -> gmap string str -> option (gmap string str))
      (l : list string) :
  rewrites f fix_file ->
  forall (fs : gmap string str) (out : list string),
    fold_left (visit_path fix_file) l (Some (World fs out)) = None <->
    Exists (fun p => read_text p fs = None) l.
Proof.
  intros Hf. induction l as [|q l IH]; intros fs out.
  { split; [discriminate | intros H; inversion H]. }
  cbn [fold_left visit_path contents stdout]. rewrite Hf.
  destruct (read_text q fs) as [c|] eqn:Hc.
  - rewrite IH. unfold write_text, read_text in *. split.
    + intros H. apply Exists_cons. right.
      eapply Exists_impl; [exact H|]. intros p Hp. cbn beta in *.
      destruct (decide (q = p)) as [->|Hqp].
      * rewrite lookup_insert_eq in Hp. discriminate.
      * rewrite lookup_insert_ne in Hp by exact Hqp. exact Hp.
    + intros H. apply Exists_cons in H as [H|H]; [congruence|].
      eapply Exists_impl; [exact H|]. intros p Hp. cbn beta in *.
      destruct (decide (q = p)) as [->|Hqp]; [congruence|].
      rewrite lookup_insert_ne by exact Hqp. exact Hp.
  - rewrite visit_path_none. split; [|reflexivity].
    intros _. apply Exists_cons. left. exact Hc.
Qed.


End RewriteFacts.


(** X1.  Nothing is caught: when one of the files that a script walks to
    (name ending in .md) cannot be read, the run of either script fails. *)
Theorem run_fails_on_unread_file (directory : string) (d : dir)
        (fs : gmap string str) (out : list string) :
  Exists (fun p => read_text p fs = None) (md_paths directory d) ->
  FixMultipleBlanks.process_directory directory d (World fs out) = None /\
  FixTables.process_directory directory d (World fs out) = None.
Proof.
  intros H.
  unfold FixMultipleBlanks.process_directory, FixTables.process_directory.
  rewrite !process_tree_paths. split.
  - apply (rewrite_paths_none normalize _ _ rewrites_normalize), H.
  - apply (rewrite_paths_none (fun _ => space_tables) _ _
             rewrites_space_tables), H.
Qed.

Lemma run_fails_on_unread_file_witness :
  FixMultipleBlanks.process_directory
    "docs/api/formatters" docs_tree
    (World {["docs/api/formatters/a.md" := py "x\n\n\n"]} []) = None /\
  FixTables.process_directory
    "docs/api/formatters" docs_tree
    (World {["docs/api/formatters/a.md" := py "x\n\n\n"]} []) = None.
Proof.
  apply (run_fails_on_unread_file "docs/api/formatters" docs_tree
           {["docs/api/formatters/a.md" := py "x\n\n\n"]} []).
  vm_compute. apply Exists_cons_tl, Exists_cons_hd. reflexivity.
Defined.





(** * Paths: the extension filter and the walk root *)

Section PathFacts.












End PathFacts.





(** * What the normalizer keeps *)

Section KeepFacts.

Lemma squeeze_inserted (s : str) : forall n, inserted (squeeze n s) s.
Proof.
  induction s as [|c s IH]; intros n; [constructor|].
  cbn [squeeze]. destruct (Ascii.eqb c nl) eqn:Ec.
  - apply Ascii.eqb_eq in Ec. subst c.
    destruct (2 <=? n); [apply inserted_new | apply inserted_keep]; apply IH.
  - apply inserted_keep, IH.
Qed.

Lemma squeeze_fixed (s : str) :
  forall n, runs_below n s = true -> squeeze n s = s.
Proof.
  induction s as [|c s IH]; intros n H; [reflexivity|].
  cbn [runs_below squeeze] in *. destruct (Ascii.eqb c nl).
  - apply andb_true_iff in H as [Hn H]. apply Nat.ltb_lt in Hn.
    replace (2 <=? n) with false by (symmetry; apply Nat.leb_gt; lia).
    rewrite (IH _ H). reflexivity.
  - rewrite (IH _ H). reflexivity.
Qed.

Lemma repeat_nl_snoc (n : nat) (z : str) :
  repeat nl n ++ nl :: z = nl :: repeat nl n ++ z.
Proof. induction n as [|n IH]; [reflexivity|]. cbn [repeat app]. rewrite IH. reflexivity. Qed.

Lemma runs_below_false (s : str) :
  forall n, runs_below n s = false -> n <= 2 ->
    exists a b, repeat nl n ++ s = a ++ [nl; nl; nl] ++ b.
Proof.
  induction s as [|c s IH]; intros n H Hn; [discriminate|].
  cbn [runs_below] in H. destruct (Ascii.eqb c nl) eqn:Ec.
  - apply Ascii.eqb_eq in Ec. subst c.
    destruct (n <? 2) eqn:E2.
    + apply Nat.ltb_lt in E2. cbn [andb] in H.
      destruct (IH (S n) H) as (a & b & E); [lia|].
      exists a, b. rewrite repeat_nl_snoc. exact E.
    + apply Nat.ltb_ge in E2. assert (n = 2) as -> by lia.
      exists [], s. reflexivity.
  - destruct (IH 0 H) as (a & b & E); [lia|]. cbn [repeat app] in E.
    exists (repeat nl n ++ c :: a), b. rewrite E, <- app_assoc. reflexivity.
Qed.

Lemma forallb_text_app (x y : str) :
  forallb (fun c => negb (Ascii.eqb c nl)) (x ++ y)
  = forallb (fun c => negb (Ascii.eqb c nl)) x
    && forallb (fun c => negb (Ascii.eqb c nl)) y.
Proof. induction x as [|c x IH]; [reflexivity|]. cbn [app forallb]. rewrite IH, andb_assoc. reflexivity. Qed.

Lemma squeeze_text (s : str) :
  forallb (fun c => negb (Ascii.eqb c nl)) s = true ->
  forall n, squeeze n s = s.
Proof.
  induction s as [|c s IH]; intros H n; [reflexivity|].
  cbn [forallb] in H. apply andb_true_iff in H as [Hc H].
  apply negb_true_iff in Hc. cbn [squeeze]. rewrite Hc, (IH H). reflexivity.
Qed.

Lemma split_nl_line (pre t : str) :
  forallb (fun c => negb (Ascii.eqb c nl)) pre = true ->
  split_nl (pre ++ nl :: t) = pre :: split_nl t.
Proof.
  induction pre as [|c pre IH]; intros H; [reflexivity|].
  cbn [forallb] in H. apply andb_true_iff in H as [Hc H].
  apply negb_true_iff in Hc. cbn [app split_nl]. rewrite Hc, (IH H). reflexivity.
Qed.

Lemma nonblank_lines_line (pre t : str) :
  forallb (fun c => negb (Ascii.eqb c nl)) pre = true ->
  nonblank_lines (pre ++ nl :: t)
  = (if nonblank pre then [pre] else []) ++ nonblank_lines t.
Proof.
  intros H. unfold nonblank_lines. rewrite (split_nl_line pre t H).
  cbn [List.filter]. destruct (nonblank pre); reflexivity.
Qed.

Lemma squeeze_nonblank_lines (s : str) :
  forall n pre,
    forallb (fun c => negb (Ascii.eqb c nl)) pre = true ->
    (pre <> [] -> n = 0) ->
    nonblank_lines (pre ++ squeeze n s) = nonblank_lines (pre ++ s).
Proof.
  induction s as [|c s IH]; intros n pre Hpre Hn; [reflexivity|].
  cbn [squeeze]. destruct (Ascii.eqb c nl) eqn:Ec.
  - apply Ascii.eqb_eq in Ec. subst c. destruct (2 <=? n) eqn:E2.
    + apply Nat.leb_le in E2.
      destruct pre as [|x pre]; [|specialize (Hn ltac:(discriminate)); lia].
      cbn [app]. change (nl :: s) with ([] ++ nl :: s).
      rewrite (nonblank_lines_line [] s eq_refl). cbn [nonblank app].
      apply (IH n []); [reflexivity | congruence].
    + rewrite !nonblank_lines_line by exact Hpre. f_equal.
      apply (IH (S n) []); [reflexivity | congruence].
  - replace (pre ++ c :: squeeze 0 s) with ((pre ++ [c]) ++ squeeze 0 s)
      by (rewrite <- app_assoc; reflexivity).
    replace (pre ++ c :: s) with ((pre ++ [c]) ++ s)
      by (rewrite <- app_assoc; reflexivity).
    apply IH; [|reflexivity].
    rewrite forallb_text_app, Hpre. cbn [forallb]. rewrite Ec. reflexivity.
Qed.

Lemma inserted_without_newlines (s s' : str) :
  inserted s s' -> without_newlines s' = without_newlines s.
Proof.
  induction 1 as [|c s s' _ IH|s s' _ IH]; [reflexivity| |exact IH].
  unfold without_newlines in *. cbn [List.filter]. rewrite IH. reflexivity.
Qed.

Lemma has_close_false (s : str) :
  has_close s = false -> forall a b, s <> a ++ [pipe; nl] ++ b.
Proof.
  intros H a. revert s H. induction a as [|c a IH]; intros s H b E; subst s.
  - cbn in H. discriminate.
  - cbn [app has_close] in H. apply orb_false_iff in H as [_ H].
    apply (IH _ H b). reflexivity.
Qed.

Lemma prev_nl_rev (x : str) :
  prev_nl (rev x) = true -> exists x', x = x' ++ [nl].
Proof.
  destruct x as [|c x] using rev_ind; [discriminate|].
  rewrite rev_app_distr. cbn [rev app prev_nl]. intros H.
  apply Ascii.eqb_eq in H. subst c. exists x. reflexivity.
Qed.

End KeepFacts.

(** X6.  For a file other than the exempted one, the text written back is
    the text read with some of its newlines removed, never longer; it is
    the text read exactly when that has no three newlines in a row. *)
Theorem normalizer_changes_only_long_runs (file_path : string) (content : str) :
  file_path <> "CHANGELOG.md" ->
  inserted (normalize file_path content) content /\
  length (normalize file_path content) <= length content /\
  (normalize file_path content = content <->
   forall a b, content <> a ++ [nl; nl; nl] ++ b).
Proof.
  intros Hp. rewrite (normalize_spec file_path content Hp).
  pose proof (squeeze_inserted content 0) as Hi.
  split; [exact Hi|]. split; [apply inserted_length, Hi|]. split.
  - intros E a b Ec. pose proof (runs_below_squeeze content 0) as R.
    rewrite E, Ec, runs_below_triple in R. discriminate.
  - intros Hno. apply squeeze_fixed.
    destruct (runs_below 0 content) eqn:R; [reflexivity|].
    destruct (runs_below_false content 0 R) as (a & b & E); [lia|].
    destruct (Hno a b E).
Qed.

Lemma normalizer_changes_only_long_runs_witness :
  inserted (normalize "README.md" (py "a\n\nb\n\n\n\nc\n"))
           (py "a\n\nb\n\n\n\nc\n") /\
  length (normalize "README.md" (py "a\n\nb\n\n\n\nc\n"))
  <= length (py "a\n\nb\n\n\n\nc\n") /\
  (normalize "README.md" (py "a\n\nb\n\n\n\nc\n") = py "a\n\nb\n\n\n\nc\n" <->
   forall a b, py "a\n\nb\n\n\n\nc\n" <> a ++ [nl; nl; nl] ++ b).
Proof.
  apply (normalizer_changes_only_long_runs "README.md").
  discriminate.
Defined.

(** X7.  Under any file name the normalizer keeps the lines that are not
    blank, each as it was and in the same order: it never joins, splits or
    alters a line of text, and so keeps every character other than a
    newline. *)
Theorem normalizer_keeps_nonblank_lines (file_path : string) (content : str) :
  nonblank_lines (normalize file_path content) = nonblank_lines content /\
  without_newlines (normalize file_path content) = without_newlines content.
Proof.
  unfold normalize. destruct (decide (file_path <> "CHANGELOG.md"));
    [|split; reflexivity].
  rewrite sub_blank. split.
  - apply (squeeze_nonblank_lines content 0 []); [reflexivity | congruence].
  - symmetry. apply inserted_without_newlines, squeeze_inserted.
Qed.

(** X8.  The table spacer only inserts newlines: the text written back is
    the text read with newlines added, so no character is changed or
    removed and the characters other than newlines are as they were. *)
Theorem spacer_only_inserts_newlines (content : str) :
  inserted content (space_tables content) /\
  without_newlines (space_tables content) = without_newlines content /\
  length content <= length (space_tables content).
Proof.
  pose proof (fold_pad_inserted (findall table_re content) content) as Hi.
  split; [exact Hi|]. split.
  - apply inserted_without_newlines, Hi.
  - apply inserted_length, Hi.
Qed.

(** X9.  Every table the scan returns stands in the content directly after
    a newline and directly before a newline, begins with a pipe and ends
    with a pipe, and past its first character has no pipe directly before a
    newline: the match stops at the first pipe that ends a line. *)
Theorem scanned_table_shape (content t : str) :
  In t (findall table_re content) ->
  exists x u w,
    content = x ++ [nl] ++ t ++ [nl] ++ w /\
    t = [pipe] ++ u ++ [pipe] /\
    forall a b, u ++ [pipe] <> a ++ [pipe; nl] ++ b.
Proof.
  intros H. apply findall_hit, table_pieces_hits in H.
  destruct H as (x & u & w & E & Ht & Hp & Hu).
  rewrite app_nil_r in Hp. apply prev_nl_rev in Hp as [x' ->].
  exists x', u, w. split; [|split].
  - rewrite E, <- app_assoc. reflexivity.
  - exact Ht.
  - apply has_close_false, Hu.
Qed.

Lemma scanned_table_shape_witness :
  exists x u w,
    scenario_B = x ++ [nl] ++ py "|c|d|" ++ [nl] ++ w /\
    py "|c|d|" = [pipe] ++ u ++ [pipe] /\
    forall a b, u ++ [pipe] <> a ++ [pipe; nl] ++ b.
Proof.
  apply (scanned_table_shape scenario_B (py "|c|d|")).
  vm_compute. right. left. reflexivity.
Defined.

(** X10.  The two rewrites in a row.  Take a one-line row between two
    newlines, with text somewhere before it, any number of blank lines
    around it, its first pipe the only pipe of the content that directly
    follows a newline and its text occurring only once.  Spacing the tables
    and then normalizing the blank lines (under a name other than the
    exempted one) leaves exactly two newlines on either side of the row,
    however many blank lines stood there before. *)
Theorem spacer_then_normalizer_lone_row (file_path : string)
        (pre mid post : str) (a b : nat) :
  file_path <> "CHANGELOG.md" ->
  forallb (fun c => negb (Ascii.eqb c nl)) mid = true ->
  ends_with_text pre = true ->
  begins_with_nl post = false ->
  occurrences [nl; pipe]
    ((pre ++ repeat nl a) ++ [nl] ++ (pipe :: mid ++ [pipe]) ++ [nl]
     ++ (repeat nl b ++ post)) = 1 ->
  occurrences (pipe :: mid ++ [pipe])
    ((pre ++ repeat nl a) ++ [nl] ++ (pipe :: mid ++ [pipe]) ++ [nl]
     ++ (repeat nl b ++ post)) = 1 ->
  normalize file_path
    (space_tables ((pre ++ repeat nl a) ++ [nl] ++ (pipe :: mid ++ [pipe])
                   ++ [nl] ++ (repeat nl b ++ post)))
  = normalize file_path pre ++ [nl; nl] ++ (pipe :: mid ++ [pipe])
    ++ [nl; nl] ++ normalize file_path post.
Proof.
  intros Hp Hmid Hpre Hpost Hstart Hrow.
  rewrite single_row_output by assumption.
  rewrite !normalize_spec by exact Hp.
  set (row := pipe :: mid ++ [pipe]) in *.
  assert (Hrow_text : forallb (fun c => negb (Ascii.eqb c nl)) row = true).
  { unfold row. cbn [forallb]. rewrite forallb_text_app, Hmid. reflexivity. }
  assert (Hrow_end : ends_with_nl row = false).
  { unfold ends_with_nl, row. rewrite app_comm_cons, last_snoc. reflexivity. }
  assert (Hpre_end : ends_with_nl pre = false).
  { unfold ends_with_nl, ends_with_text in *. destruct (last pre); [|reflexivity].
    apply negb_true_iff, Hpre. }
  assert (Hpost0 : leading post = 0).
  { destruct post as [|c post]; [reflexivity|]. cbn [begins_with_nl leading] in *.
    rewrite Hpost. reflexivity. }
  replace ((pre ++ repeat nl a) ++ [nl; nl] ++ row ++ [nl; nl] ++ repeat nl b ++ post)
    with (pre ++ repeat nl (S (S a)) ++ row ++ repeat nl (S (S b)) ++ post).
  2:{ rewrite <- app_assoc. f_equal. cbn [repeat app].
      rewrite !repeat_nl_snoc. reflexivity. }
  rewrite (squeeze_app pre) by exact Hpre_end.
  replace (match pre with [] => 0 | _ :: _ => 0 end) with 0 by (destruct pre; reflexivity).
  rewrite squeeze_run by reflexivity.
  rewrite (squeeze_app row) by exact Hrow_end.
  change (match row with [] => 0 | _ :: _ => 0 end) with 0.
  rewrite (squeeze_text row Hrow_text), (squeeze_run b post Hpost0).
  reflexivity.
Qed.

Lemma spacer_then_normalizer_lone_row_witness :
  normalize "doc.md"
    (space_tables ((py "text" ++ repeat nl 1) ++ [nl]
                   ++ (pipe :: py "a|b" ++ [pipe]) ++ [nl]
                   ++ (repeat nl 2 ++ py "more\n")))
  = normalize "doc.md" (py "text") ++ [nl; nl] ++ (pipe :: py "a|b" ++ [pipe])
    ++ [nl; nl] ++ normalize "doc.md" (py "more\n").
Proof.
  apply (spacer_then_normalizer_lone_row "doc.md" (py "text") (py "a|b")
           (py "more\n") 1 2).
  - discriminate.
  - reflexivity.
  - reflexivity.
  - reflexivity.
  - reflexivity.
  - reflexivity.
Defined.

(** * A row among other tables *)

Section RowAmongOthers.

Lemma starts_with_cut (t : str) :
  one_line t = true ->
  forall A B, starts_with t (A ++ nl :: B) = starts_with t A.
Proof.
  induction t as [|c t IH]; intros Ht A B; [reflexivity|].
  cbn [one_line forallb] in Ht. apply andb_true_iff in Ht as [Hc Ht].
  apply negb_true_iff in Hc.
  destruct A as [|a A]; cbn [app starts_with].
  - rewrite Hc. reflexivity.
  - rewrite (IH Ht). reflexivity.
Qed.

Lemma replace_nonempty (t new s : str) :
  t <> [] -> replace t new s = replace_from t new 0 s.
Proof. destruct t; [congruence | reflexivity]. Qed.

(** A text without a newline is replaced on either side of a newline
    separately. *)
Lemma replace_from_app_nl (t new B : str) :
  one_line t = true -> t <> [] ->
  forall n A, length A <= n ->
    replace_from t new 0 (A ++ nl :: B)
    = replace_from t new 0 A ++ nl :: replace_from t new 0 B.
Proof.
  intros Ht Hne. induction n as [|n IH]; intros A Hn.
  - destruct A; [|cbn [length] in Hn; lia].
    cbn [app]. rewrite replace_from_miss; [reflexivity|].
    change (nl :: B) with ([] ++ nl :: B). rewrite starts_with_cut by exact Ht.
    destruct t; [congruence | reflexivity].
  - destruct A as [|c A]; [apply (IH []); cbn [length]; lia|].
    destruct (starts_with t (c :: A)) eqn:E.
    + pose proof E as E'. apply starts_with_true in E' as [A2 E'].
      rewrite E', <- app_assoc, !replace_from_occ by exact Hne.
      rewrite IH, <- app_assoc; [reflexivity|].
      apply (f_equal length) in E'. rewrite length_app in E'.
      destruct t; [congruence|]. cbn [length] in *. lia.
    + cbn [app]. rewrite !replace_from_miss;
        [|exact E|change (c :: A ++ nl :: B) with ((c :: A) ++ nl :: B);
                  rewrite starts_with_cut; assumption].
      rewrite IH by (cbn [length] in Hn; lia). reflexivity.
Qed.

Lemma pad_table_app_nl (t A B : str) :
  one_line t = true -> t <> [] ->
  pad_table (A ++ nl :: B) t = pad_table A t ++ nl :: pad_table B t.
Proof.
  intros Ht Hne. unfold pad_table. rewrite !replace_nonempty by exact Hne.
  apply (replace_from_app_nl t _ B Ht Hne (length A)). lia.
Qed.

Lemma pad_table_nil (t : str) : t <> [] -> pad_table [] t = [].
Proof. intros Hne. unfold pad_table. rewrite replace_nonempty by exact Hne. reflexivity. Qed.

Lemma pad_table_absent (t s : str) :
  t <> [] -> occurrences t s = 0 -> pad_table s t = s.
Proof.
  intros Hne H. unfold pad_table. rewrite replace_nonempty by exact Hne.
  apply replace_from_none, H.
Qed.

Lemma pad_table_self (t : str) : t <> [] -> pad_table t t = [nl] ++ t ++ [nl].
Proof.
  intros Hne. unfold pad_table. rewrite replace_nonempty by exact Hne.
  pose proof (replace_from_occ t ([nl] ++ t ++ [nl]) [] Hne) as H.
  rewrite app_nil_r in H. rewrite H. cbn [replace_from].
  rewrite app_nil_r. reflexivity.
Qed.

(** One step of the loop on a document cut at the row. *)
Lemma pad_table_zone (t row L R : str) (p : bool) :
  one_line t = true -> t <> [] ->
  pad_table (L ++ zone p row ++ R) t
  = pad_table L t
    ++ (if p then [nl; nl] else [nl]) ++ pad_table row t
    ++ (if p then [nl; nl] else [nl]) ++ pad_table R t.
Proof.
  intros Ht Hne. unfold zone. destruct p; cbn [app]; rewrite <- !app_assoc;
    cbn [app].
  - rewrite pad_table_app_nl by assumption. f_equal. f_equal.
    change (nl :: row ++ nl :: nl :: R) with ([] ++ nl :: row ++ nl :: nl :: R).
    rewrite pad_table_app_nl, pad_table_nil by assumption. cbn [app]. f_equal.
    rewrite pad_table_app_nl by assumption. f_equal. f_equal.
    change (nl :: R) with ([] ++ nl :: R).
    rewrite pad_table_app_nl, pad_table_nil by assumption. reflexivity.
  - rewrite pad_table_app_nl by assumption. f_equal. f_equal.
    rewrite pad_table_app_nl by assumption. reflexivity.
Qed.

Lemma occurrences_app_nl (t A B : str) :
  one_line t = true -> t <> [] ->
  occurrences t (A ++ nl :: B) = occurrences t A + occurrences t B.
Proof.
  intros Ht Hne. induction A as [|c A IH].
  - cbn [app occurrences]. change (nl :: B) with ([] ++ nl :: B).
    rewrite starts_with_cut by exact Ht. destruct t; [congruence | reflexivity].
  - cbn [app occurrences].
    change (c :: A ++ nl :: B) with ((c :: A) ++ nl :: B).
    rewrite starts_with_cut, IH by exact Ht. lia.
Qed.

Lemma starts_with_inserted (s s' : str) :
  inserted s s' ->
  forall t, one_line t = true -> starts_with t s' = true -> starts_with t s = true.
Proof.
  induction 1 as [|c s s' _ IH|s s' _ IH]; intros t Ht H.
  - exact H.
  - destruct t as [|x t]; [reflexivity|]. cbn [starts_with] in *.
    apply andb_true_iff in H as [Hx H]. rewrite Hx. cbn [andb].
    cbn [one_line forallb] in Ht. apply andb_true_iff in Ht as [_ Ht].
    apply IH; assumption.
  - destruct t as [|x t]; [destruct s; reflexivity|]. cbn [starts_with] in H.
    apply andb_true_iff in H as [Hx _].
    cbn [one_line forallb] in Ht. apply andb_true_iff in Ht as [Hc _].
    apply negb_true_iff in Hc. congruence.
Qed.

Lemma occurrences_inserted (s s' t : str) :
  inserted s s' -> one_line t = true -> t <> [] ->
  occurrences t s' <= occurrences t s.
Proof.
  intros Hi Ht Hne. induction Hi as [|c s s' Hi IH|s s' Hi IH].
  - reflexivity.
  - cbn [occurrences].
    destruct (starts_with t (c :: s')) eqn:E; [|lia].
    rewrite (starts_with_inserted (c :: s) (c :: s') (inserted_keep c s s' Hi)
               t Ht E). lia.
  - cbn [occurrences]. change (nl :: s') with ([] ++ nl :: s').
    rewrite starts_with_cut by exact Ht.
    destruct t; [congruence|]. cbn [starts_with]. lia.
Qed.

Lemma inserted_snoc (s s' : str) (c : ascii) :
  inserted s s' -> inserted (s ++ [c]) (s' ++ [c]).
Proof. intros H. apply inserted_app; [exact H | apply inserted_refl]. Qed.

Lemma inserted_rev (s s' : str) : inserted s s' -> inserted (rev s) (rev s').
Proof.
  induction 1 as [|c s s' _ IH|s s' _ IH]; cbn [rev].
  - constructor.
  - apply inserted_snoc, IH.
  - rewrite <- (app_nil_r (rev s)).
    apply inserted_app; [exact IH | repeat constructor].
Qed.

Lemma one_line_rev (t : str) : one_line (rev t) = one_line t.
Proof.
  unfold one_line. induction t as [|c t IH]; [reflexivity|].
  cbn [rev forallb]. rewrite forallb_text_app, IH. cbn [forallb].
  rewrite andb_true_r. apply andb_comm.
Qed.

Lemma ends_with_inserted (s s' t : str) :
  inserted s s' -> one_line t = true ->
  ends_with s t = false -> ends_with s' t = false.
Proof.
  intros Hi Ht H. unfold ends_with in *.
  destruct (starts_with (rev t) (rev s')) eqn:E; [|reflexivity].
  rewrite (starts_with_inserted _ _ (inserted_rev _ _ Hi) (rev t)) in H;
    [discriminate | rewrite one_line_rev; exact Ht | exact E].
Qed.

Lemma ends_with_false (s t : str) :
  ends_with s t = false -> forall a, s <> a ++ t.
Proof.
  unfold ends_with. intros H a ->. rewrite rev_app_distr, starts_with_app in H.
  discriminate.
Qed.

Lemma ends_with_text_app (x b : str) :
  b <> [] -> ends_with_text (x ++ b) = ends_with_text b.
Proof.
  intros Hb. unfold ends_with_text. rewrite last_app.
  destruct (last b) eqn:E; [reflexivity|]. apply last_None in E. contradiction.
Qed.

(** Padding the occurrences of a text that the document does not end with
    keeps the last character of the document. *)
Lemma replaced_keeps_text_end (t new s s' : str) :
  all_replaced t new s s' ->
  (forall a, s <> a ++ t) ->
  ends_with_text s = true -> ends_with_text s' = true.
Proof.
  induction 1 as [s _|a b b' _ _ IH]; intros Hend Htext; [exact Htext|].
  assert (Hb : b <> []).
  { intros ->. apply (Hend a). rewrite app_nil_r. reflexivity. }
  rewrite app_assoc, ends_with_text_app in Htext by exact Hb.
  assert (Hb' : ends_with_text b' = true).
  { apply IH; [|exact Htext]. intros a' ->. apply (Hend (a ++ t ++ a')).
    rewrite <- !app_assoc. reflexivity. }
  rewrite app_assoc, ends_with_text_app; [exact Hb'|].
  intros ->. discriminate.
Qed.

Lemma pad_table_keeps_text_end (t L : str) :
  t <> [] -> ends_with L t = false ->
  ends_with_text L = true -> ends_with_text (pad_table L t) = true.
Proof.
  intros Hne He Ht.
  apply (replaced_keeps_text_end t ([nl] ++ t ++ [nl]) L);
    [apply pad_table_replaced, Hne | apply ends_with_false, He | exact Ht].
Qed.

Lemma pad_table_keeps_text_start (t R : str) :
  t <> [] -> starts_with t R = false ->
  begins_with_nl R = false -> begins_with_nl (pad_table R t) = false.
Proof.
  intros Hne Hs Hb. unfold pad_table. rewrite replace_nonempty by exact Hne.
  destruct R as [|c R]; [reflexivity|].
  rewrite replace_from_miss by exact Hs. exact Hb.
Qed.

Lemma starts_with_take (n : nat) (s : str) : starts_with (take n s) s = true.
Proof.
  revert s. induction n as [|n IH]; intros s; [destruct s; reflexivity|].
  destruct s as [|c s]; [reflexivity|]. cbn [take starts_with].
  rewrite Ascii.eqb_refl. apply IH.
Qed.

(** The scan returns a text no more often than it occurs. *)
Lemma hits_count (r : regex) (t : str) :
  t <> [] ->
  forall after skip before,
    count_text t (flat_map (fun x => match x with Hit m => [m] | Lit _ => [] end)
                           (pieces r skip before after))
    <= occurrences t after.
Proof.
  intros Hne. induction after as [|c a IH]; intros skip before.
  - destruct skip; cbn [pieces]; [|reflexivity].
    destruct (match_at r (Cursor before [])); [|reflexivity].
    cbn [flat_map app count_text take]. rewrite take_nil.
    case_bool_decide; [congruence | reflexivity].
  - destruct skip as [|skip]; cbn [pieces occurrences].
    2:{ specialize (IH skip (c :: before)). lia. }
    destruct (match_at r (Cursor before (c :: a))) as [q|].
    + cbn [flat_map app count_text].
      set (n := length (c :: a) - length (ahead q)).
      assert (H1 : (if bool_decide (take n (c :: a) = t) then 1 else 0)
                   <= (if starts_with t (c :: a) then 1 else 0)).
      { case_bool_decide as E; [|lia]. rewrite <- E, starts_with_take. lia. }
      destruct n as [|n'].
      * cbn [flat_map app]. specialize (IH 0 (c :: before)). lia.
      * specialize (IH n' (c :: before)). lia.
    + cbn [flat_map app]. specialize (IH 0 (c :: before)). lia.
Qed.

Lemma count_text_in (t : str) (ts : list str) :
  In t ts -> 1 <= count_text t ts.
Proof.
  induction ts as [|x ts IH]; intros H; [destruct H|].
  cbn [count_text]. destruct H as [->|H].
  - rewrite bool_decide_eq_true_2 by reflexivity. lia.
  - specialize (IH H). lia.
Qed.

(** The loop of the spacer on a document cut at the row: the row is padded
    once, and the text on either side is padded on its own. *)
Lemma fold_zone (row : str) :
  one_line row = true -> row <> [] ->
  forall ts p L R,
    ends_with_text L = true -> begins_with_nl R = false ->
    Forall (fun t => t <> [] /\ clear_of L row R t = true) ts ->
    count_text row ts = (if p : bool then 0 else 1) ->
    fold_left pad_table ts (L ++ zone p row ++ R)
    = fold_left pad_table ts L ++ zone true row ++ fold_left pad_table ts R
    /\ ends_with_text (fold_left pad_table ts L) = true
    /\ begins_with_nl (fold_left pad_table ts R) = false.
Proof.
  intros Hrow Hne. induction ts as [|t ts IH]; intros p L R HL HR Hts Hc.
  { cbn [fold_left count_text] in *. destruct p; [|discriminate].
    repeat split; assumption. }
  cbn [fold_left].
  apply Forall_cons in Hts as [[Ht Hclear] Hts].
  unfold clear_of in Hclear.
  apply andb_true_iff in Hclear as [Hclear Hpost].
  apply andb_true_iff in Hclear as [Hclear Hpre].
  apply andb_true_iff in Hclear as [Hline Hin].
  apply negb_true_iff in Hpre, Hpost.
  assert (HL1 : ends_with_text (pad_table L t) = true)
    by (apply pad_table_keeps_text_end; assumption).
  assert (HR1 : begins_with_nl (pad_table R t) = false)
    by (apply pad_table_keeps_text_start; assumption).
  assert (Hts1 : Forall (fun t' => t' <> [] /\
                           clear_of (pad_table L t) row (pad_table R t) t' = true)
                        ts).
  { eapply Forall_impl; [exact Hts|]. cbn beta. intros t' [Hne' H'].
    split; [exact Hne'|]. unfold clear_of in *.
    apply andb_true_iff in H' as [H' Hpost'].
    apply andb_true_iff in H' as [H' Hpre'].
    apply negb_true_iff in Hpre', Hpost'.
    pose proof H' as Hl'. apply andb_true_iff in Hl' as [Hl' _].
    rewrite H'. cbn [andb].
    rewrite (ends_with_inserted L (pad_table L t) t'
               (pad_table_inserted L t) Hl' Hpre'). cbn [negb andb].
    apply negb_true_iff.
    destruct (starts_with t' (pad_table R t)) eqn:E; [|reflexivity].
    rewrite (starts_with_inserted R (pad_table R t) (pad_table_inserted R t)
               t' Hl' E) in Hpost'. discriminate. }
  rewrite pad_table_zone by assumption.
  cbn [count_text] in Hc.
  destruct (bool_decide (t = row)) eqn:Et.
  - apply bool_decide_eq_true_1 in Et. subst t.
    destruct p; [discriminate|].
    rewrite pad_table_self by exact Hne.
    specialize (IH true (pad_table L row) (pad_table R row) HL1 HR1 Hts1).
    replace (pad_table L row ++ [nl] ++ ([nl] ++ row ++ [nl]) ++ [nl]
             ++ pad_table R row)
      with (pad_table L row ++ zone true row ++ pad_table R row)
      by (unfold zone; rewrite <- !app_assoc; reflexivity).
    apply IH. lia.
  - cbn [orb] in Hin. apply Nat.eqb_eq in Hin.
    rewrite (pad_table_absent t row) by assumption.
    specialize (IH p (pad_table L t) (pad_table R t) HL1 HR1 Hts1).
    replace (pad_table L t ++ (if p then [nl; nl] else [nl]) ++ row
             ++ (if p then [nl; nl] else [nl]) ++ pad_table R t)
      with (pad_table L t ++ zone p row ++ pad_table R t)
      by (unfold zone; destruct p; rewrite <- !app_assoc; reflexivity).
    apply IH. lia.
Qed.

End RowAmongOthers.

(** C2, amended.  Let a one-line row (a pipe, text without a newline, a
    pipe) stand between two newlines, with a line of text before it and no
    blank line after it.  Let the scan of the content return the text of the
    row exactly once, and let every match of the scan lie on one line and
    keep clear of the row: if it is not the row, its text does not occur
    inside the row; the text before the row does not end with it and the
    text after the row does not begin with it.  Then the output is the
    padded text before the row, two newlines, the row, two newlines and the
    padded text after the row, where the padded text before still ends with
    a character other than a newline and the padded text after still does
    not begin with a newline: the row has exactly one blank line on either
    side.  Other rows, also rows whose text occurs several times, may stand
    elsewhere in the content. *)
Theorem detected_row_padded (pre mid post : str) :
  let row := pipe :: mid ++ [pipe] in
  let content := pre ++ [nl] ++ row ++ [nl] ++ post in
  let tables := findall table_re content in
  one_line mid = true ->
  ends_with_text pre = true ->
  begins_with_nl post = false ->
  count_text row tables = 1 ->
  forallb (clear_of pre row post) tables = true ->
  space_tables content
  = fold_left pad_table tables pre ++ [nl; nl] ++ row ++ [nl; nl]
    ++ fold_left pad_table tables post /\
  inserted pre (fold_left pad_table tables pre) /\
  inserted post (fold_left pad_table tables post) /\
  ends_with_text (fold_left pad_table tables pre) = true /\
  begins_with_nl (fold_left pad_table tables post) = false /\
  padded_once row (space_tables content) = true.
Proof.
  intros row content tables Hmid Hpre Hpost Hcount Hclear.
  assert (Hrow : one_line row = true).
  { unfold row, one_line in *. cbn [forallb]. rewrite forallb_text_app, Hmid.
    reflexivity. }
  assert (Hne : row <> []) by discriminate.
  assert (Hts : Forall (fun t => t <> [] /\ clear_of pre row post t = true)
                       tables).
  { pose proof (findall_table_nonempty content) as Hn.
    rewrite forallb_forall in Hclear. rewrite Forall_forall in Hn |- *.
    intros t Hin. split; [apply Hn, Hin|].
    apply Hclear, list_elem_of_In, Hin. }
  destruct (fold_zone row Hrow Hne tables false pre post Hpre Hpost Hts Hcount)
    as (Hout & Hpre' & Hpost').
  assert (Hspace : space_tables content
                   = fold_left pad_table tables pre ++ [nl; nl] ++ row
                     ++ [nl; nl] ++ fold_left pad_table tables post).
  { unfold space_tables. fold tables. unfold content.
    replace (pre ++ [nl] ++ row ++ [nl] ++ post)
      with (pre ++ zone false row ++ post)
      by (unfold zone; rewrite <- !app_assoc; reflexivity).
    rewrite Hout. unfold zone. rewrite <- !app_assoc. reflexivity. }
  split; [exact Hspace|].
  split; [apply fold_pad_inserted|]. split; [apply fold_pad_inserted|].
  split; [exact Hpre'|]. split; [exact Hpost'|].
  rewrite Hspace. unfold padded_once. apply padded_from_app; [|exact Hpost'].
  unfold ends_with_text in Hpre'.
  destruct (last (fold_left pad_table tables pre)); [exact Hpre' | discriminate].
Qed.

Lemma detected_row_padded_witness :
  space_tables (py "intro" ++ [nl] ++ (pipe :: py "a" ++ [pipe]) ++ [nl]
                ++ py "text\n|b|\nend\n")
  = py "intro\n\n|a|\n\ntext\n\n|b|\n\nend\n" /\
  padded_once (py "|a|") (space_tables (py "intro\n|a|\ntext\n|b|\nend\n"))
  = true.
Proof.
  pose proof (detected_row_padded (py "intro") (py "a")
                (py "text\n|b|\nend\n")) as H.
  cbv zeta in H.
  destruct H as (Hout & _ & _ & _ & _ & Hpad);
    [vm_compute; reflexivity ..|].
  split; [rewrite Hout; vm_compute; reflexivity | exact Hpad].
Defined.

(** * The bytes of the exempted file *)

Section DiskFacts.

Lemma universal_newlines_plain (s : str) :
  no_cr s = true -> Disk.universal_newlines s = s.
Proof.
  induction s as [|c s IH]; [reflexivity|]. cbn [no_cr forallb].
  intros H. apply andb_true_iff in H as [Hc Hs]. apply negb_true_iff in Hc.
  cbn [Disk.universal_newlines]. rewrite Hc, (IH Hs). reflexivity.
Qed.

Lemma platform_newlines_posix (s : str) : Disk.platform_newlines [nl] s = s.
Proof.
  unfold Disk.platform_newlines. induction s as [|c s IH]; [reflexivity|].
  cbn [flat_map]. rewrite IH. destruct (Ascii.eqb c nl) eqn:E; [|reflexivity].
  apply Ascii.eqb_eq in E. subst c. reflexivity.
Qed.

(** Reading never returns a carriage return. *)
Lemma universal_newlines_no_cr (n : nat) :
  forall s, length s <= n -> no_cr (Disk.universal_newlines s) = true.
Proof.
  induction n as [|n IH]; intros s Hn.
  { destruct s; [reflexivity | cbn [length] in Hn; lia]. }
  destruct s as [|c s]; [reflexivity|]. cbn [length] in Hn.
  cbn [Disk.universal_newlines]. destruct (Ascii.eqb c cr) eqn:Ec.
  - cbn [no_cr forallb]. change (negb (Ascii.eqb nl cr)) with true.
    cbn [andb]. destruct s as [|d s]; [reflexivity|]. cbn [length] in Hn.
    destruct (Ascii.eqb d nl); apply IH; cbn [length]; lia.
  - cbn [no_cr forallb]. rewrite Ec. cbn [negb andb]. apply IH. lia.
Qed.

Lemma no_cr_inserted (s s' : str) : inserted s s' -> no_cr s = no_cr s'.
Proof.
  induction 1 as [|c s s' _ IH|s s' _ IH]; [reflexivity| |exact IH].
  cbn [no_cr forallb]. unfold no_cr in IH. rewrite IH. reflexivity.
Qed.

(** What is written is read back as it was, on a lawful platform, when it
    holds no carriage return. *)
Lemma universal_platform_newlines (sep s : str) :
  sep = [nl] \/ sep = [cr; nl] \/ sep = [cr] ->
  no_cr s = true ->
  Disk.universal_newlines (Disk.platform_newlines sep s) = s.
Proof.
  intros Hsep. unfold Disk.platform_newlines.
  induction s as [|c s IH]; [reflexivity|]. cbn [no_cr forallb].
  intros H. apply andb_true_iff in H as [Hc Hs]. apply negb_true_iff in Hc.
  specialize (IH Hs). cbn [flat_map]. destruct (Ascii.eqb c nl) eqn:E.
  - apply Ascii.eqb_eq in E. subst c.
    destruct Hsep as [->|[->| ->]]; cbn [app Disk.universal_newlines].
    + change (Ascii.eqb nl cr) with false. cbn iota. rewrite IH. reflexivity.
    + change (Ascii.eqb cr cr) with true. change (Ascii.eqb nl nl) with true.
      cbn iota. rewrite IH. reflexivity.
    + change (Ascii.eqb cr cr) with true. cbn iota.
      destruct (flat_map _ s) as [|d r] eqn:Er.
      * cbn [Disk.universal_newlines] in IH. rewrite <- IH. reflexivity.
      * destruct (Ascii.eqb d nl) eqn:Ed; [|rewrite IH; reflexivity].
        exfalso. apply Ascii.eqb_eq in Ed. subst d.
        destruct s as [|e s]; [discriminate|]. cbn [flat_map] in Er.
        destruct (Ascii.eqb e nl) eqn:Ee; cbn [app] in Er.
        -- unfold cr, nl in Er. discriminate.
        -- injection Er as -> _. rewrite Ascii.eqb_refl in Ee. discriminate.
  - cbn [app Disk.universal_newlines]. rewrite Hc, IH. reflexivity.
Qed.

Lemma read_view (pf : Disk.platform) (path : string)
      (disk : gmap string Disk.file) :
  Disk.read pf path disk = read_text path (Disk.view pf disk).
Proof.
  unfold Disk.read, read_text, Disk.view. rewrite lookup_omap.
  destruct (disk !! path); reflexivity.
Qed.

Lemma read_no_cr (pf : Disk.platform) (path : string)
      (disk : gmap string Disk.file) (content : str) :
  Disk.read pf path disk = Some content -> no_cr content = true.
Proof.
  unfold Disk.read, Disk.text_of. intros H.
  destruct (disk !! path) as [f|]; [|discriminate].
  destruct (Disk.readable f); [|discriminate].
  destruct (Disk.decode pf (Disk.data f)) as [t|]; [|discriminate].
  injection H as <-. apply (universal_newlines_no_cr (length t)). lia.
Qed.

(** A per-file function on disk that returns has done to the texts what
    the function on the texts does. *)
Lemma rewrite_on_disk (pf : Disk.platform) (f : str -> str) (path : string)
      (disk disk' : gmap string Disk.file) :
  Disk.lawful pf ->
  (forall s, inserted s (f s) \/ inserted (f s) s) ->
  match Disk.read pf path disk with
  | Some content => Disk.write pf path (f content) disk
  | None => None
  end = Some disk' ->
  exists content,
    read_text path (Disk.view pf disk) = Some content /\
    Disk.view pf disk' = write_text path (f content) (Disk.view pf disk).
Proof.
  intros [Hround Hsep] Hf H.
  destruct (Disk.read pf path disk) as [content|] eqn:Hr; [|discriminate].
  exists content. split; [rewrite <- read_view; exact Hr|].
  pose proof (read_no_cr _ _ _ _ Hr) as Hcr.
  assert (Hcr' : no_cr (f content) = true).
  { destruct (Hf content) as [Hi|Hi]; apply no_cr_inserted in Hi; congruence. }
  unfold Disk.read in Hr. unfold Disk.write in H.
  destruct (disk !! path) as [g|] eqn:Hg; [|discriminate].
  destruct (Disk.readable g) eqn:Hread; [|discriminate].
  cbn [fst snd] in H. destruct (Disk.writable g); [|discriminate].
  destruct (Disk.encode pf _) as [bytes|] eqn:He; [|discriminate].
  injection H as <-. unfold Disk.view, write_text.
  apply omap_insert_Some. cbn [Disk.readable].
  unfold Disk.text_of. cbn [Disk.data]. rewrite (Hround _ _ He).
  rewrite universal_platform_newlines by assumption. reflexivity.
Qed.

(** The two per-file functions on disk refine the ones on the texts. *)
Lemma disk_refines_texts (pf : Disk.platform) (path : string)
      (disk disk' : gmap string Disk.file) :
  Disk.lawful pf ->
  (Disk.fix_multiple_blanks pf path disk = Some disk' ->
   FixMultipleBlanks.fix_multiple_blanks path (Disk.view pf disk)
   = Some (Disk.view pf disk')) /\
  (Disk.fix_table_formatting pf path disk = Some disk' ->
   FixTables.fix_table_formatting path (Disk.view pf disk)
   = Some (Disk.view pf disk')).
Proof.
  intros Hpf. split; intros H.
  - destruct (rewrite_on_disk pf (normalize path) path disk disk' Hpf)
      as (content & Hr & Hv); [|exact H|].
    { intros s0. right. unfold normalize.
      destruct (decide (path <> "CHANGELOG.md")); [|apply inserted_refl].
      rewrite sub_blank. apply squeeze_inserted. }
    unfold FixMultipleBlanks.fix_multiple_blanks. rewrite Hr, Hv. reflexivity.
  - destruct (rewrite_on_disk pf space_tables path disk disk' Hpf)
      as (content & Hr & Hv); [|exact H|].
    { intros s0. left. apply space_tables_inserted. }
    unfold FixTables.fix_table_formatting. rewrite Hr, Hv. reflexivity.
Qed.

End DiskFacts.

(** C7, counterexample.  On a POSIX platform a CHANGELOG.md with Windows
    line endings is read with its line endings turned into newlines and
    written back that way: the bytes of the file change.  On a Windows
    platform the file of scenario C is written back with a carriage return
    before every newline. *)
Lemma changelog_line_endings_rewritten :
  (Disk.fix_multiple_blanks Disk.posix_latin1 "CHANGELOG.md"
     {["CHANGELOG.md" :=
         Disk.File (py "a" ++ [cr; nl; cr; nl; cr; nl] ++ py "b" ++ [cr; nl])
                   true true]}
   = Some {["CHANGELOG.md" := Disk.File (py "a\n\n\nb\n") true true]} /\
   py "a\n\n\nb\n"
   <> py "a" ++ [cr; nl; cr; nl; cr; nl] ++ py "b" ++ [cr; nl]) /\
  (Disk.fix_multiple_blanks Disk.windows_latin1 "CHANGELOG.md"
     {["CHANGELOG.md" := Disk.File (py "a\n\n\n\nb\n") true true]}
   = Some {["CHANGELOG.md" :=
              Disk.File (py "a" ++ [cr; nl; cr; nl; cr; nl; cr; nl] ++ py "b"
                         ++ [cr; nl])
                        true true]} /\
   py "a" ++ [cr; nl; cr; nl; cr; nl; cr; nl] ++ py "b" ++ [cr; nl]
   <> py "a\n\n\n\nb\n").
Proof.
  split; (split; [|discriminate]);
    unfold Disk.fix_multiple_blanks, Disk.read;
    rewrite lookup_singleton_eq;
    cbv beta iota delta [Disk.text_of Disk.decode Disk.data Disk.readable
                         Disk.posix_latin1 Disk.windows_latin1];
    unfold Disk.write; rewrite lookup_singleton_eq;
    cbv beta iota zeta delta [Disk.encode Disk.linesep Disk.readable
                              Disk.writable Disk.posix_latin1
                              Disk.windows_latin1 fst snd];
    rewrite insert_singleton_eq; reflexivity.
Qed.

(** C7, amended.  Under the name CHANGELOG.md the text that is read is the
    text that is written, whatever it holds.  The bytes of the file are left
    as they were when the line separator of the platform is the newline,
    the file can be opened for reading and for writing, its bytes can be
    decoded, the decoded text holds no carriage return and is encoded back
    to the bytes of the file.  So it is for the file of scenario C on a
    POSIX platform. *)
Theorem changelog_bytes_kept :
  (forall (fs : gmap string str) (content : str),
      read_text "CHANGELOG.md" fs = Some content ->
      normalize "CHANGELOG.md" content = content /\
      FixMultipleBlanks.fix_multiple_blanks "CHANGELOG.md" fs = Some fs) /\
  (forall (pf : Disk.platform) (disk : gmap string Disk.file)
          (f : Disk.file) (text : str),
      Disk.linesep pf = [nl] ->
      disk !! "CHANGELOG.md" = Some f ->
      Disk.readable f = true ->
      Disk.writable f = true ->
      Disk.decode pf (Disk.data f) = Some text ->
      no_cr text = true ->
      Disk.encode pf text = Some (Disk.data f) ->
      Disk.read pf "CHANGELOG.md" disk = Some text /\
      Disk.fix_multiple_blanks pf "CHANGELOG.md" disk = Some disk) /\
  Disk.fix_multiple_blanks Disk.posix_latin1 "CHANGELOG.md"
    {["CHANGELOG.md" := Disk.File (py "a\n\n\n\nb\n") true true]}
  = Some {["CHANGELOG.md" := Disk.File (py "a\n\n\n\nb\n") true true]}.
Proof.
  assert (G : forall (pf : Disk.platform) (disk : gmap string Disk.file)
                     (f : Disk.file) (text : str),
             Disk.linesep pf = [nl] ->
             disk !! "CHANGELOG.md" = Some f ->
             Disk.readable f = true ->
             Disk.writable f = true ->
             Disk.decode pf (Disk.data f) = Some text ->
             no_cr text = true ->
             Disk.encode pf text = Some (Disk.data f) ->
             Disk.read pf "CHANGELOG.md" disk = Some text /\
             Disk.fix_multiple_blanks pf "CHANGELOG.md" disk = Some disk).
  { intros pf disk f text Hsep Hf Hr Hw Hd Hcr He.
    assert (R : Disk.read pf "CHANGELOG.md" disk = Some text).
    { unfold Disk.read, Disk.text_of. rewrite Hf, Hr, Hd.
      rewrite universal_newlines_plain by exact Hcr. reflexivity. }
    split; [exact R|].
    unfold Disk.fix_multiple_blanks. rewrite R.
    change (normalize "CHANGELOG.md" text) with text.
    unfold Disk.write. rewrite Hf, Hw. cbn [fst snd].
    rewrite Hsep, platform_newlines_posix, He, Hr.
    f_equal. apply insert_id. rewrite Hf. destruct f as [b r w].
    cbn [Disk.data Disk.readable Disk.writable] in *. subst r w. reflexivity. }
  split; [exact (proj1 changelog_left_unchanged)|]. split; [exact G|].
  apply (G Disk.posix_latin1 _ (Disk.File (py "a\n\n\n\nb\n") true true)
           (py "a\n\n\n\nb\n"));
    first [apply lookup_singleton_eq | reflexivity].
Qed.

Lemma changelog_bytes_kept_witness :
  Disk.read Disk.posix_latin1 "CHANGELOG.md"
    {["CHANGELOG.md" := Disk.File scenario_C true true]} = Some scenario_C /\
  Disk.fix_multiple_blanks Disk.posix_latin1 "CHANGELOG.md"
    {["CHANGELOG.md" := Disk.File scenario_C true true]}
  = Some {["CHANGELOG.md" := Disk.File scenario_C true true]}.
Proof.
  apply (proj1 (proj2 changelog_bytes_kept) Disk.posix_latin1
           {["CHANGELOG.md" := Disk.File scenario_C true true]}
           (Disk.File scenario_C true true) scenario_C).
  - reflexivity.
  - apply lookup_singleton_eq.
  - reflexivity.
  - reflexivity.
  - reflexivity.
  - reflexivity.
  - reflexivity.
Defined.

(** * The walker reaches every file of the tree *)

Section WalkReach.

Lemma md_paths_dir (top : string) (subdirs : list (string * dir))
      (files : list string) :
  md_paths top (Dir subdirs files)
  = map (path_join top) (List.filter (fun file => endswith file ".md") files)
    ++ flat_map (fun e => md_paths (path_join top (fst e)) (snd e)) subdirs.
Proof.
  unfold md_paths. cbn [walk flat_map fst snd]. f_equal.
  induction subdirs as [|e l IH]; [reflexivity|].
  cbn [flat_map]. rewrite flat_map_app, IH. reflexivity.
Qed.

(** A file of the tree whose name ends in .md is among the walked paths. *)
Lemma in_tree_walked (top : string) (d : dir) (file path : string) :
  in_tree top d file path -> endswith file ".md" = true ->
  In path (md_paths top d).
Proof.
  induction 1 as [top subdirs files file Hin
                 |top subdirs files name sub file path Hin _ IH];
    intros Hmd; rewrite md_paths_dir; apply in_or_app.
  - left. apply in_map. apply filter_In. split; assumption.
  - right. apply in_flat_map. exists (name, sub). split; [exact Hin|].
    apply IH, Hmd.
Qed.

End WalkReach.

(** C9.  Driven from ['.'], the walker reaches every file of the tree whose
    name ends in .md, a CHANGELOG.md in the top directory as
    ./CHANGELOG.md; every path it builds begins with ['./'], so none equals
    the bare name CHANGELOG.md and the exemption is never taken.  When the
    walked files can be read, the run returns, prints one line per walked
    path, and every walked file, the CHANGELOG.md at the walk root
    included, holds its text with the runs of newlines collapsed: no three
    newlines in a row are left in it. *)
Theorem walker_collapses_changelog (subdirs : list (string * dir))
        (files : list string) (fs : gmap string str) (out : list string)
        (content : str) :
  names_ok (Dir subdirs files) = true ->
  In "CHANGELOG.md" files ->
  Forall (fun p => is_Some (read_text p fs))
         (md_paths "." (Dir subdirs files)) ->
  read_text "./CHANGELOG.md" fs = Some content ->
  In "./CHANGELOG.md" (md_paths "." (Dir subdirs files)) /\
  (forall file path,
      in_tree "." (Dir subdirs files) file path ->
      endswith file ".md" = true ->
      In path (md_paths "." (Dir subdirs files)) /\
      String.prefix "./" path = true /\
      path <> "CHANGELOG.md" /\
      forall text, normalize path text = squeeze 0 text) /\
  exists fs',
    FixMultipleBlanks.main (Dir subdirs files) (World fs out)
    = Some (World fs' (out ++ map (fun p => "Processing " +:+ p)
                                  (md_paths "." (Dir subdirs files)))) /\
    read_text "./CHANGELOG.md" fs' = Some (squeeze 0 content) /\
    (forall a b, squeeze 0 content <> a ++ [nl; nl; nl] ++ b) /\
    forall p text,
      In p (md_paths "." (Dir subdirs files)) ->
      read_text p fs = Some text ->
      read_text p fs' = Some (squeeze 0 text) /\
      forall a b, squeeze 0 text <> a ++ [nl; nl; nl] ++ b.
Proof.
  intros Hn Hin Hsome Hr.
  assert (Hreach : forall file path,
             in_tree "." (Dir subdirs files) file path ->
             endswith file ".md" = true ->
             In path (md_paths "." (Dir subdirs files))).
  { intros file path Ht Hmd. apply (in_tree_walked "." _ file path Ht Hmd). }
  assert (Hroot : In "./CHANGELOG.md" (md_paths "." (Dir subdirs files))).
  { apply (Hreach "CHANGELOG.md" "./CHANGELOG.md"); [|reflexivity].
    apply (in_here "." subdirs files "CHANGELOG.md" Hin). }
  assert (Htriple : forall text a b,
             squeeze 0 text <> a ++ [nl; nl; nl] ++ b).
  { intros text a b E. pose proof (runs_below_squeeze text 0) as R.
    rewrite E, runs_below_triple in R. discriminate. }
  destruct (walker_never_exempts (Dir subdirs files) fs out Hn Hsome)
    as (Hall & fs' & Hrun & Hfs').
  rewrite Forall_forall in Hall.
  split; [exact Hroot|]. split.
  - intros file path Ht Hmd. pose proof (Hreach file path Ht Hmd) as Hp.
    split; [exact Hp|].
    destruct (Hall path (proj2 (list_elem_of_In _ _) Hp)) as (H1 & H2 & H3).
    split; [exact H1|]. split; [exact H2|].
    intros text. apply normalize_spec, H2.
  - exists fs'. split; [exact Hrun|].
    split; [rewrite (Hfs' _ _ Hroot Hr), sub_blank; reflexivity|].
    split; [apply Htriple|].
    intros p text Hp Hpr.
    split; [rewrite (Hfs' _ _ Hp Hpr), sub_blank; reflexivity | apply Htriple].
Qed.

Lemma walker_collapses_changelog_witness :
  In "./CHANGELOG.md" (md_paths "." sample_tree) /\
  exists fs',
    FixMultipleBlanks.main sample_tree (World sample_files [])
    = Some (World fs' (map (fun p => "Processing " +:+ p)
                           (md_paths "." sample_tree))) /\
    read_text "./CHANGELOG.md" fs' = Some (py "a\n\nb\n").
Proof.
  destruct (walker_collapses_changelog
              [("docs", Dir [] ["CHANGELOG.md"; "notes.txt"])]
              ["CHANGELOG.md"; "readme.md"; "notes.txt"]
              sample_files [] scenario_C)
    as (Hroot & _ & fs' & Hrun & Hfs' & _).
  - reflexivity.
  - left. reflexivity.
  - vm_compute. repeat constructor; eexists; reflexivity.
  - reflexivity.
  - split; [exact Hroot|]. exists fs'. split; [exact Hrun | exact Hfs'].
Defined.
